(** * SchemaGenerator: root-type resolution and definition collection

    A shallow embedding of [src/SchemaGenerator.ts].  The TypeScript compiler
    API, the node parser and the type formatter are collaborators of the
    class: they appear here as records of functions, and every theorem
    quantifies over them. *)

From Stdlib Require Import Ascii.
From stdpp Require Import gmap strings list fin_maps.

#[local] Set Warnings "-register-all,-clear-no-such-hyp".
#[local] Open Scope string_scope.
#[local] Open Scope list_scope.

(** ** Outcomes

    A method either returns or throws.  The three things thrown in this file:
    [NoRootTypeError], the plain [Error] of the collision check, and the
    [TypeError] raised by the compiler API when it is handed [undefined]. *)

Inductive Exception :=
  | NoRootTypeError (name : string)
  | Error (message : string)
  | TypeError.

Inductive Res (A : Type) :=
  | Ok (a : A)
  | Throw (e : Exception).
Arguments Ok {A} a.
Arguments Throw {A} e.

#[export] Instance res_ret : MRet Res := fun _ a => Ok a.
#[export] Instance res_bind : MBind Res := fun _ _ f r =>
  match r with Ok a => f a | Throw e => Throw e end.

Definition returns {A} (r : Res A) : bool :=
  match r with Ok _ => true | Throw _ => false end.

(** ** JavaScript strings

    Strings are sequences of bytes (UTF-8).  The two characters the code
    looks for, the double quote and the dot, are single bytes. *)

Definition dquote : ascii := "034"%char.
Definition dot : ascii := "."%char.

(** [s.includes(sub)] *)
Fixpoint includes (sub s : string) : bool :=
  String.prefix sub s ||
  match s with
  | EmptyString => false
  | String _ s' => includes sub s'
  end.

(** The regular expression's [.] matches anything but a line terminator:
    LF, CR, U+2028 and U+2029 (E2 80 A8 and E2 80 A9 in UTF-8). *)
Definition lineTerminatorAt (s : string) : bool :=
  match s with
  | String c rest =>
      (c =? "010")%char || (c =? "013")%char ||
      match rest with
      | String c1 (String c2 _) =>
          (c =? "226")%char && (c1 =? "128")%char &&
          ((c2 =? "168")%char || (c2 =? "169")%char)
      | _ => false
      end
  | EmptyString => false
  end.

(** The pattern is: a quote, any run of characters ([.*]), a quote, a dot.
    [matchTail s] matches all but the opening quote at the start of [s] and
    returns what follows the match.  The star is greedy: it first tries to
    swallow one more character, and settles for the closing quote and dot at
    the current position only when that fails. *)
Fixpoint matchTail (s : string) : option string :=
  match s with
  | EmptyString => None
  | String c s' =>
      match (if lineTerminatorAt s then None else matchTail s') with
      | Some rest => Some rest
      | None =>
          match s' with
          | String c' rest =>
              if (c =? dquote)%char && (c' =? dot)%char then Some rest else None
          | EmptyString => None
          end
      end
  end.

(** [s.replace(pattern, empty)]: the leftmost match is removed, once. *)
Fixpoint replaceQuoted (s : string) : string :=
  match s with
  | EmptyString => EmptyString
  | String c s' =>
      if (c =? dquote)%char then
        match matchTail s' with
        | Some rest => rest
        | None => String c (replaceQuoted s')
        end
      else String c (replaceQuoted s')
  end.

(** ** JavaScript [Map<string, A>]

    A [Map] remembers insertion order, and [values()] follows it; [set] on a
    key already present keeps the key's place and replaces the value. *)

Definition JsMap (A : Type) := list (string * A).

Fixpoint map_get {A} (k : string) (m : JsMap A) : option A :=
  match m with
  | [] => None
  | (k', v) :: m' => if String.eqb k' k then Some v else map_get k m'
  end.

Fixpoint map_set {A} (k : string) (v : A) (m : JsMap A) : JsMap A :=
  match m with
  | [] => [(k, v)]
  | (k', v') :: m' =>
      if String.eqb k' k then (k', v) :: m' else (k', v') :: map_set k v m'
  end.

Definition map_values {A} (m : JsMap A) : list A := m.*2.
Definition map_keys {A} (m : JsMap A) : list string := m.*1.

(** ** The compiler API: symbols, syntax trees, programs *)

(** [ts.Symbol]: the code only asks whether the property [exportSymbol]
    exists, and hands the symbol back to the type checker, which qualifies
    its name by its parents. *)
Inductive Symbol := mkSymbol {
  escapedName : string;
  parent : option Symbol;
  exportSymbol : option Symbol
}.

Inductive SyntaxKind :=
  | SourceFile
  | InterfaceDeclaration
  | ClassDeclaration
  | EnumDeclaration
  | TypeAliasDeclaration
  | OtherKind (code : N).

(** [ts.Node].  [symbol] and [localSymbol] are the two untyped fields read
    by [symbolAtNode] and [localSymbolAtNode]; [typeParameters] only has its
    presence and length read (the names stand for the parameters);
    [children] is what [ts.forEachChild] visits, in order. *)
Inductive Node := mkNode {
  kind : SyntaxKind;
  pos : nat;
  symbol : option Symbol;
  localSymbol : option Symbol;
  typeParameters : option (list string);
  children : list Node
}.

Record SourceFileT := mkSourceFile {
  fileName : string;
  statements : list Node
}.

(** A source file is itself a node, of kind [SourceFile]. *)
Definition sourceFileNode (sf : SourceFileT) : Node :=
  mkNode SourceFile 0 None None None (statements sf).

Record TypeChecker := mkTypeChecker {
  getFullyQualifiedName : Symbol -> string
}.

Record Program := mkProgram {
  getSourceFiles : list SourceFileT;
  getRootFileNames : list string;
  getTypeChecker : TypeChecker
}.

Definition symbolAtNode (node : Node) : option Symbol := symbol node.
Definition localSymbolAtNode (node : Node) : option Symbol := localSymbol node.

(** ** The declaration index *)

Definition isExportType (node : Node) : bool :=
  match localSymbolAtNode node with
  | Some localSymbol =>
      match exportSymbol localSymbol with Some _ => true | None => false end
  | None => false
  end.

Definition isGenericType (node : Node) : bool :=
  match typeParameters node with
  | Some ps => bool_decide (0 < length ps)
  | None => false
  end.

(** [symbolAtNode(node)!]: the assertion is erased at run time, so an
    absent symbol reaches the type checker as [undefined]. *)
Definition getFullName (node : Node) (typeChecker : TypeChecker) : Res string :=
  match symbolAtNode node with
  | Some symbol => Ok (replaceQuoted (getFullyQualifiedName typeChecker symbol))
  | None => Throw TypeError
  end.

Definition isDeclarationKind (k : SyntaxKind) : bool :=
  match k with
  | InterfaceDeclaration | ClassDeclaration
  | EnumDeclaration | TypeAliasDeclaration => true
  | _ => false
  end.

Fixpoint inspectNode (node : Node) (typeChecker : TypeChecker)
    (allTypes : JsMap Node) : Res (JsMap Node) :=
  match node with
  | mkNode k _ _ _ _ subnodes =>
      match k with
      | InterfaceDeclaration | ClassDeclaration
      | EnumDeclaration | TypeAliasDeclaration =>
          if negb (isExportType node) || isGenericType node then Ok allTypes
          else
            name ← getFullName node typeChecker;
            Ok (map_set name node allTypes)
      | _ =>
          (fix forEachChild (ns : list Node) (types : JsMap Node) :=
             match ns with
             | [] => Ok types
             | subnode :: ns' =>
                 types' ← inspectNode subnode typeChecker types;
                 forEachChild ns' types'
             end) subnodes allTypes
      end
  end.

Fixpoint appendTypes (sourceFiles : list SourceFileT) (typeChecker : TypeChecker)
    (types : JsMap Node) : Res (JsMap Node) :=
  match sourceFiles with
  | [] => Ok types
  | sourceFile :: rest =>
      types' ← inspectNode (sourceFileNode sourceFile) typeChecker types;
      appendTypes rest typeChecker types'
  end.

(** ** Types, definitions and the type formatter

    [BaseType] is the type hierarchy of the node parser.  The collector only
    tells a [DefinitionType] from the rest ([instanceof]) and reads its id,
    its name and the type it wraps. *)

Inductive BaseType :=
  | OtherType (id : string)
  | IsDefinitionType (child : DefinitionType)
with DefinitionType :=
  | mkDefinitionType (id : string) (name : string) (type : BaseType).

Definition getId (child : DefinitionType) : string :=
  match child with mkDefinitionType id _ _ => id end.
Definition getName (child : DefinitionType) : string :=
  match child with mkDefinitionType _ name _ => name end.
Definition getType (child : DefinitionType) : BaseType :=
  match child with mkDefinitionType _ _ type => type end.

Definition asDefinitionType (t : BaseType) : option DefinitionType :=
  match t with
  | IsDefinitionType child => Some child
  | OtherType _ => None
  end.

(** JSON values; a [Definition] and a [Schema] are JSON objects. *)
Inductive Json :=
  | JNull
  | JBool (b : bool)
  | JNum (z : Z)
  | JStr (s : string)
  | JArr (items : list Json)
  | JObj (fields : gmap string Json).

Abbreviation DefinitionT := (gmap string Json).
Abbreviation Schema := (gmap string Json).

Record TypeFormatter := mkTypeFormatter {
  getDefinition : BaseType -> DefinitionT;
  getChildren : BaseType -> list BaseType
}.

(** [createType(node, new Context())]: the context is fresh at every call. *)
Record NodeParser := mkNodeParser {
  createType : Node -> BaseType
}.

(** ** JavaScript objects used as string maps

    [name in object] also answers true for what an object literal inherits
    from [Object.prototype]. *)

Definition objectPrototypeKeys : list string :=
  [ "constructor"; "__defineGetter__"; "__defineSetter__"; "hasOwnProperty";
    "__lookupGetter__"; "__lookupSetter__"; "isPrototypeOf";
    "propertyIsEnumerable"; "toString"; "valueOf"; "__proto__";
    "toLocaleString" ].

Definition js_in {A} (name : string) (object : gmap string A) : bool :=
  bool_decide (is_Some (object !! name)) ||
  bool_decide (name ∈ objectPrototypeKeys).

(** An object literal is filled left to right: a spread, and a property
    written after it, replace what is already there under the same key. *)
Definition spread (source target : gmap string Json) : gmap string Json :=
  source ∪ target.

(** The mapping shared between invocations, together with the children
    whose definition the type formatter was asked for, oldest first. *)
Record Store := mkStore {
  definitions : gmap string DefinitionT;
  formatted : list DefinitionType
}.

Definition emptyStore : Store := mkStore ∅ [].

Definition draft07 : string := "http://json-schema.org/draft-07/schema#".

Definition collisionMessage (name : string) : string :=
  "Type " +:+ String dquote name +:+ String dquote " has multiple definitions.".

(** The second [filter] of [appendRootChildDefinitions]: keep the first
    child of every id. *)
Fixpoint filterSeen (seen : gset string) (children : list DefinitionType)
    : list DefinitionType :=
  match children with
  | [] => []
  | child :: rest =>
      if bool_decide (getId child ∈ seen) then filterSeen seen rest
      else child :: filterSeen ({[getId child]} ∪ seen) rest
  end.

(** The [for] loop over the children: [previousId && ...] is a truthiness
    test, and the empty string is falsy. *)
Fixpoint checkNames (ids : gmap string string) (children : list DefinitionType)
    : Res unit :=
  match children with
  | [] => Ok tt
  | child :: rest =>
      let name := getName child in
      let collides :=
        match ids !! name with
        | Some previousId =>
            negb (String.eqb previousId "") &&
            negb (String.eqb (getId child) previousId)
        | None => false
        end in
      if collides then Throw (Error (collisionMessage name))
      else checkNames (<[name := getId child]> ids) rest
  end.

(** ** The generator *)

Section SchemaGenerator.

Variable program : Program.
Variable nodeParser : NodeParser.
Variable typeFormatter : TypeFormatter.

(** [partitionFiles]: one pass, each file pushed on one of two arrays. *)
Definition isExternal (sourceFile : SourceFileT) : bool :=
  includes "/node_modules/" (fileName sourceFile).

Definition projectFiles : list SourceFileT :=
  filter (fun sourceFile => isExternal sourceFile = false) (getSourceFiles program).

Definition externalFiles : list SourceFileT :=
  filter (fun sourceFile => isExternal sourceFile = true) (getSourceFiles program).

(** [has] and then [get] on the same key are one lookup. *)
Definition findNamedNode (fullName : string) : Res Node :=
  let typeChecker := getTypeChecker program in
  allTypes ← appendTypes projectFiles typeChecker [];
  match map_get fullName allTypes with
  | Some node => Ok node
  | None =>
      allTypes' ← appendTypes externalFiles typeChecker allTypes;
      match map_get fullName allTypes' with
      | Some node => Ok node
      | None => Throw (NoRootTypeError fullName)
      end
  end.

(** [fullName && fullName !== star], where [undefined] and the empty string
    are falsy: the name to look up when the test holds. *)
Definition specificName (fullName : option string) : option string :=
  match fullName with
  | Some name =>
      if negb (String.eqb name "") && negb (String.eqb name "*")
      then Some name else None
  | None => None
  end.

Definition rootSourceFiles : list SourceFileT :=
  filter (fun sourceFile => fileName sourceFile ∈ getRootFileNames program)
         (getSourceFiles program).

Definition getRootNodes (fullName : option string) : Res (list Node) :=
  match specificName fullName with
  | Some name => node ← findNamedNode name; Ok [node]
  | None =>
      rootNodes ← appendTypes rootSourceFiles (getTypeChecker program) [];
      Ok (map_values rootNodes)
  end.

Definition getRootTypeDefinition (rootType : BaseType) : DefinitionT :=
  getDefinition typeFormatter rootType.

(** The children of a root after the two filters. *)
Definition definitionChildren (rootType : BaseType) : list DefinitionType :=
  filterSeen ∅ (omap asDefinitionType (getChildren typeFormatter rootType)).

(** One step of the [reduce]. *)
Definition materialize (store : Store) (child : DefinitionType) : Store :=
  let name := getName child in
  if js_in name (definitions store) then store
  else mkStore (<[name := getDefinition typeFormatter (getType child)]> (definitions store))
               (formatted store ++ [child]).

(** The mapping is mutated in place, so the caller sees it after a throw as
    well: the result pairs the outcome with the store left behind. *)
Definition appendRootChildDefinitions (rootType : BaseType) (store : Store)
    : Res unit * Store :=
  let children := definitionChildren rootType in
  match checkNames ∅ children with
  | Throw e => (Throw e, store)
  | Ok _ => (Ok tt, foldl materialize store children)
  end.

(** [rootTypes.forEach(rootType => appendRootChildDefinitions(rootType, definitions))] *)
Fixpoint forEachRootType (rootTypes : list BaseType) (store : Store)
    : Res unit * Store :=
  match rootTypes with
  | [] => (Ok tt, store)
  | rootType :: rest =>
      match appendRootChildDefinitions rootType store with
      | (Ok _, store') => forEachRootType rest store'
      | (Throw e, store') => (Throw e, store')
      end
  end.

Definition schemaDocument (rootTypeDefinition : DefinitionT)
    (defs : gmap string DefinitionT) : Schema :=
  <["definitions" := JObj (JObj <$> defs)]>
    (spread rootTypeDefinition {["$schema" := JStr draft07]}).

Definition createSchema (fullName : option string) : Res Schema :=
  rootNodes ← getRootNodes fullName;
  let rootTypes := map (createType nodeParser) rootNodes in
  let rootTypeDefinition :=
    match rootTypes with
    | [rootType] => getRootTypeDefinition rootType
    | _ => ∅
    end in
  match forEachRootType rootTypes emptyStore with
  | (Ok _, store) => Ok (schemaDocument rootTypeDefinition (definitions store))
  | (Throw e, _) => Throw e
  end.

Definition createSchemaFromNode (node : Node) : Res Schema :=
  let rootType := createType nodeParser node in
  let rootTypeDefinition := getRootTypeDefinition rootType in
  match appendRootChildDefinitions rootType emptyStore with
  | (Ok _, store) => Ok (schemaDocument rootTypeDefinition (definitions store))
  | (Throw e, _) => Throw e
  end.

End SchemaGenerator.

(** ** Vocabulary of the specification

    What the traversal of [inspectNode] reaches, said without the index:
    the declaration nodes met top-down, none below another, in pre-order. *)

Fixpoint declarationNodes (node : Node) : list Node :=
  match node with
  | mkNode k _ _ _ _ subnodes =>
      if isDeclarationKind k then [node]
      else concat (map declarationNodes subnodes)
  end.

(** The loop of the default branch of [inspectNode], under a name. *)
Fixpoint inspectChildren (subnodes : list Node) (typeChecker : TypeChecker)
    (types : JsMap Node) : Res (JsMap Node) :=
  match subnodes with
  | [] => Ok types
  | subnode :: rest =>
      types' ← inspectNode subnode typeChecker types;
      inspectChildren rest typeChecker types'
  end.

(** The test [inspectNode] applies to a declaration node. *)
Definition eligible (node : Node) : bool :=
  isExportType node && negb (isGenericType node).

Definition typeParameterCount (node : Node) : nat :=
  match typeParameters node with
  | Some ps => length ps
  | None => 0
  end.

(** Eligibility in the words of the specification: exported, and for a type
    alias only, no type parameter. *)
Definition eligibleAsSpecified (node : Node) : bool :=
  isExportType node &&
  match kind node with
  | TypeAliasDeclaration => bool_decide (typeParameterCount node = 0)
  | _ => true
  end.

(** The eligible declarations of a list of files, in discovery order. *)
Definition discovered (sourceFiles : list SourceFileT) : list Node :=
  filter (fun node => eligible node = true)
         (concat (map (fun sf => declarationNodes (sourceFileNode sf)) sourceFiles)).

Definition bound (node : Node) : Prop := is_Some (symbolAtNode node).

(** The index entries of a list of declarations. *)
Fixpoint entriesOf (typeChecker : TypeChecker) (nodes : list Node)
    : Res (list (string * Node)) :=
  match nodes with
  | [] => Ok []
  | node :: rest =>
      name ← getFullName node typeChecker;
      entries ← entriesOf typeChecker rest;
      Ok ((name, node) :: entries)
  end.

(** [set] for each entry in turn. *)
Definition setAll {A} (entries : list (string * A)) (m : JsMap A) : JsMap A :=
  foldl (fun m e => map_set e.1 e.2 m) m entries.

(** The keys of a list in order of first occurrence. *)
Fixpoint firstOccurrences (seen : gset string) (keys : list string) : list string :=
  match keys with
  | [] => []
  | k :: rest =>
      if bool_decide (k ∈ seen) then firstOccurrences seen rest
      else k :: firstOccurrences ({[k]} ∪ seen) rest
  end.

(** The last entry of a key. *)
Definition lastEntry {A} (k : string) (entries : list (string * A)) : option A :=
  map_get k (reverse entries).

Fixpoint noLineTerminator (s : string) : bool :=
  match s with
  | EmptyString => true
  | String _ s' => negb (lineTerminatorAt s) && noLineTerminator s'
  end.

Fixpoint noQuote (s : string) : bool :=
  match s with
  | EmptyString => true
  | String c s' => negb (c =? dquote)%char && noQuote s'
  end.



(** How an invocation of the collector may change the shared store: every
    entry present before is kept as it was, and the type formatter is asked
    for new definitions only: each for a name that was not a key yet, no
    two for the same name, each stored under its child's name, and every
    key the mapping gains comes from one of them. *)
Definition grows (typeFormatter : TypeFormatter) (store store' : Store) : Prop :=
  (∀ name d, definitions store !! name = Some d →
             definitions store' !! name = Some d) ∧
  ∃ new,
    formatted store' = formatted store ++ new ∧
    NoDup (getName <$> new) ∧
    (∀ child, child ∈ new →
       definitions store !! getName child = None ∧
       definitions store' !! getName child =
         Some (getDefinition typeFormatter (getType child))) ∧
    (∀ name, is_Some (definitions store' !! name) →
       is_Some (definitions store !! name) ∨ name ∈ getName <$> new).

(** Two children of a list that share their name and differ in their id. *)
Definition collidingName (children : list DefinitionType) (name : string) : Prop :=
  ∃ child1 child2,
    child1 ∈ children ∧ child2 ∈ children ∧
    getName child1 = name ∧ getName child2 = name ∧
    getId child1 ≠ getId child2.

(** Induction on syntax trees: the children of a node come with the
    property. *)
Section NodeInduction.
Variable P : Node -> Prop.
Hypothesis step : ∀ k p s ls tps subnodes,
  Forall P subnodes → P (mkNode k p s ls tps subnodes).

Fixpoint Node_tree_ind (node : Node) : P node :=
  match node with
  | mkNode k p s ls tps subnodes =>
      step k p s ls tps subnodes
        ((fix all (ns : list Node) : Forall P ns :=
            match ns with
            | [] => @List.Forall_nil _ P
            | n :: ns' => @List.Forall_cons _ P n ns' (Node_tree_ind n) (all ns')
            end) subnodes)
  end.
End NodeInduction.

(** ** Sample programs

    Small programs, parsers and formatters on which the theorems below are
    run. *)

Definition quoted (s : string) : string := String dquote (s +:+ String dquote "").

(** The symbol of a module is named by its quoted path. *)
Definition moduleSymbol (path : string) : Symbol := mkSymbol (quoted path) None None.

(** The symbol [name] exported by the module at [path]. *)
Definition symbolIn (path name : string) : Symbol :=
  mkSymbol name (Some (moduleSymbol path)) None.

(** An exported declaration of [name] at position [p]: its symbol is the
    exported one, and its local symbol points to it. *)
Definition declaration (k : SyntaxKind) (p : nat) (path name : string)
    (tps : option (list string)) : Node :=
  mkNode k p (Some (symbolIn path name))
         (Some (mkSymbol name None (Some (symbolIn path name)))) tps [].

(** A type checker that prefixes a name with the names of its parents. *)
Fixpoint qualifiedName (sym : Symbol) : string :=
  match sym with
  | mkSymbol name (Some p) _ => qualifiedName p +:+ "." +:+ name
  | mkSymbol name None _ => name
  end.

Definition sampleChecker : TypeChecker := mkTypeChecker qualifiedName.

Definition interfaceA : Node := declaration InterfaceDeclaration 0 "/src/main" "A" None.
Definition interfaceB : Node := declaration InterfaceDeclaration 30 "/src/main" "B" None.
(** A second declaration of the interface [A], merged with the first. *)
Definition interfaceA2 : Node := declaration InterfaceDeclaration 60 "/src/main" "A" None.
(** [export interface Box<T>] *)
Definition genericBox : Node :=
  declaration InterfaceDeclaration 90 "/src/main" "Box" (Some ["T"]).
(** [type D = ...], not exported: no local symbol. *)
Definition localD : Node :=
  mkNode TypeAliasDeclaration 120 (Some (mkSymbol "D" None None)) None None [].
(** An exported class whose node carries no symbol. *)
Definition unboundC : Node :=
  mkNode ClassDeclaration 150 None
         (Some (mkSymbol "C" None (Some (symbolIn "/proj/node_modules/dep/index" "C"))))
         None [].
(** [export namespace NS { ... }]: a module declaration around a block. *)
Definition namespaceOf (members : list Node) : Node :=
  mkNode (OtherKind 264) 200 (Some (symbolIn "/src/main" "NS"))
         (Some (mkSymbol "NS" None (Some (symbolIn "/src/main" "NS")))) None
         [mkNode (OtherKind 265) 210 None None None members].
(** An exported interface [A] of a quoted module [m] that is itself nested
    in a namespace [N]. *)
Definition nestedA : Node :=
  let sym := mkSymbol "A" (Some (mkSymbol (quoted "m") (Some (mkSymbol "N" None None)) None)) None in
  mkNode InterfaceDeclaration 300 (Some sym) (Some (mkSymbol "A" None (Some sym))) None [].

Definition mainFile : SourceFileT :=
  mkSourceFile "/src/main.ts" [interfaceA; namespaceOf [interfaceB]; genericBox; localD].
Definition mergedFile : SourceFileT :=
  mkSourceFile "/src/main.ts" [interfaceA; interfaceA2].
Definition quietFile : SourceFileT :=
  mkSourceFile "/src/main.ts" [genericBox; localD].
Definition libraryA : Node :=
  declaration InterfaceDeclaration 7 "/proj/node_modules/lib/index" "A" None.
Definition libraryE : Node :=
  declaration EnumDeclaration 9 "/proj/node_modules/lib/index" "E" None.
Definition libraryFile : SourceFileT :=
  mkSourceFile "/proj/node_modules/lib/index.d.ts" [libraryA; libraryE].
Definition brokenFile : SourceFileT :=
  mkSourceFile "/proj/node_modules/dep/index.d.ts" [libraryA; unboundC].

Definition sampleProgram : Program :=
  mkProgram [libraryFile; mainFile] ["/src/main.ts"] sampleChecker.
Definition mergedProgram : Program :=
  mkProgram [mergedFile] ["/src/main.ts"] sampleChecker.
Definition quietProgram : Program :=
  mkProgram [quietFile; libraryFile] ["/src/main.ts"] sampleChecker.
Definition brokenDependencyProgram : Program :=
  mkProgram [brokenFile; mainFile] ["/src/main.ts"] sampleChecker.

(** A parser that wraps a declaration in a definition type named after its
    symbol, and a formatter for which a definition type is its own child. *)
Definition sampleParser : NodeParser :=
  mkNodeParser (fun node =>
    match symbol node with
    | Some sym =>
        IsDefinitionType
          (mkDefinitionType ("def-" +:+ escapedName sym) (escapedName sym)
                            (OtherType (escapedName sym)))
    | None => OtherType "unknown"
    end).

Definition sampleFormatter : TypeFormatter :=
  mkTypeFormatter
    (fun t =>
       match t with
       | IsDefinitionType child => {[ "$ref" := JStr ("#/definitions/" +:+ getName child) ]}
       | OtherType id => {[ "type" := JStr "object"; "title" := JStr id ]}
       end)
    (fun t => match t with IsDefinitionType _ => [t] | OtherType _ => [] end).

(** A formatter whose definitions carry a [$schema] field of their own. *)
Definition stampingFormatter : TypeFormatter :=
  mkTypeFormatter
    (fun _ => {[ "$schema" := JStr "urn:example:other"; "type" := JStr "object" ]})
    (fun _ => []).

(** Definition types named [Bar], of different ids. *)
Definition barOtherId : DefinitionType := mkDefinitionType "x" "Bar" (OtherType "bar-2").
Definition barThirdId : DefinitionType := mkDefinitionType "y" "Bar" (OtherType "bar-3").

(** A formatter that reports the children [children] for every type. *)
Definition formatterWith (children : list DefinitionType) : TypeFormatter :=
  mkTypeFormatter
    (fun t => match t with
              | OtherType id => {[ "title" := JStr id ]}
              | IsDefinitionType child => {[ "title" := JStr (getId child) ]}
              end)
    (fun _ => IsDefinitionType <$> children).

(** What [sampleFormatter] answers for the type wrapped under [A], and the
    store after collecting the root [A]. *)
Definition definitionOfA : DefinitionT :=
  {[ "type" := JStr "object"; "title" := JStr "A" ]}.
Definition storeOfA : Store :=
  mkStore {[ "A" := definitionOfA ]} [mkDefinitionType "def-A" "A" (OtherType "A")].

(** ** Further source functions and vocabulary *)

(** [partitionFiles] as the source writes it: one loop over the source
    files, each pushed on one of two arrays. *)
Definition partitionFiles (program : Program) : list SourceFileT * list SourceFileT :=
  foldl (fun arrays sourceFile =>
           if includes "/node_modules/" (fileName sourceFile)
           then (arrays.1, arrays.2 ++ [sourceFile])
           else (arrays.1 ++ [sourceFile], arrays.2))
        ([], []) (getSourceFiles program).

(** [sub] occurs in [s]. *)
Definition occursIn (sub s : string) : Prop :=
  ∃ pre post, s = pre +:+ sub +:+ post.

(** The first child of a list that carries a name. *)
Definition firstNamed (name : string) (children : list DefinitionType)
    : option DefinitionType :=
  snd <$> list_find (fun child => getName child = name) children.

(** The definition types among the children the formatter reports, before
    the filter on ids. *)
Definition reportedChildren (typeFormatter : TypeFormatter) (rootType : BaseType)
    : list DefinitionType :=
  omap asDefinitionType (getChildren typeFormatter rootType).

(** [c1] and [c2] carry one name, [c1] before [c2], and no child between
    them carries it. *)
Definition successive (children : list DefinitionType) (c1 c2 : DefinitionType) : Prop :=
  ∃ before between after,
    children = before ++ c1 :: between ++ c2 :: after ∧
    getName c1 = getName c2 ∧
    ∀ c, c ∈ between → getName c ≠ getName c1.

(** The definition types the sample parser makes of [A] and [B], the store
    after collecting both, and the document for the root [A]. *)
Definition typeOfA : BaseType := createType sampleParser interfaceA.
Definition typeOfB : BaseType := createType sampleParser interfaceB.
Definition definitionOfB : DefinitionT :=
  {[ "type" := JStr "object"; "title" := JStr "B" ]}.
Definition storeOfAB : Store :=
  mkStore {[ "A" := definitionOfA; "B" := definitionOfB ]}
          [mkDefinitionType "def-A" "A" (OtherType "A");
           mkDefinitionType "def-B" "B" (OtherType "B")].
Definition documentOfA : Schema :=
  schemaDocument (getDefinition sampleFormatter typeOfA) {[ "A" := definitionOfA ]}.

(** ** What the collaborators guarantee *)



(** [DefinitionType]: an id is never the empty string. *)
Definition properId (child : DefinitionType) : Prop := getId child ≠ "".

(** Two definition types named [Bar] over different types, and a third
    type named [Baz]. *)
Definition barOne : DefinitionType :=
  mkDefinitionType "def-interface-1" "Bar" (OtherType "interface-1").
Definition barTwo : DefinitionType :=
  mkDefinitionType "def-interface-2" "Bar" (OtherType "interface-2").
Definition bazOne : DefinitionType :=
  mkDefinitionType "def-interface-3" "Baz" (OtherType "interface-3").

(** * Lemmas *)

(** ** JavaScript maps *)

Section JsMapFacts.
Context {A : Type}.
Implicit Types (m : JsMap A) (k : string) (v : A) (es : list (string * A)).

Lemma map_get_set_eq k v m : map_get k (map_set k v m) = Some v.
Proof.
  induction m as [|[k' v'] m IH]; simpl.
  - by rewrite String.eqb_refl.
  - destruct (String.eqb k' k) eqn:E; simpl; by rewrite E.
Qed.

Lemma map_get_set_ne k k' v m :
  k ≠ k' → map_get k' (map_set k v m) = map_get k' m.
Proof.
  intros Hne. induction m as [|[k0 v0] m IH]; simpl.
  - destruct (String.eqb k k') eqn:E; [|done].
    by apply String.eqb_eq in E.
  - destruct (String.eqb k0 k) eqn:E; simpl; [|by rewrite IH].
    apply String.eqb_eq in E. subst k0.
    destruct (String.eqb k k') eqn:E'; [|done].
    by apply String.eqb_eq in E'.
Qed.

Lemma map_get_set k k' v m :
  map_get k' (map_set k v m) = if decide (k = k') then Some v else map_get k' m.
Proof.
  case_decide as H; [subst; apply map_get_set_eq | by apply map_get_set_ne].
Qed.

Lemma map_get_Some_elem k v m : map_get k m = Some v → v ∈ map_values m.
Proof.
  unfold map_values. induction m as [|[k' v'] m IH]; csimpl; [done|].
  destruct (String.eqb k' k).
  - intros [= ->]. apply elem_of_cons. by left.
  - intros H. apply elem_of_cons. right. by apply IH.
Qed.

Lemma map_get_app k m1 m2 :
  map_get k (m1 ++ m2) =
  match map_get k m1 with Some v => Some v | None => map_get k m2 end.
Proof.
  induction m1 as [|[k' v'] m1 IH]; simpl; [done|].
  by destruct (String.eqb k' k).
Qed.

Lemma map_keys_set k v m :
  map_keys (map_set k v m) =
  if bool_decide (k ∈ map_keys m) then map_keys m else map_keys m ++ [k].
Proof.
  unfold map_keys. induction m as [|[k' v'] m IH]; csimpl.
  - done.
  - destruct (String.eqb k' k) eqn:E; csimpl.
    + apply String.eqb_eq in E. subst k'.
      rewrite bool_decide_eq_true_2; [done | apply elem_of_cons; by left].
    + apply String.eqb_neq in E. rewrite IH.
      destruct (decide (k ∈ m.*1)) as [Hin|Hin].
      * rewrite !bool_decide_eq_true_2; [done | | done].
        apply elem_of_cons. by right.
      * rewrite !bool_decide_eq_false_2; [done | | done].
        rewrite not_elem_of_cons. naive_solver.
Qed.

Lemma map_set_fresh k v m : k ∉ map_keys m → map_set k v m = m ++ [(k, v)].
Proof.
  unfold map_keys. induction m as [|[k' v'] m IH]; csimpl; [done|].
  rewrite not_elem_of_cons. intros [Hne Hin].
  destruct (String.eqb k' k) eqn:E.
  - apply String.eqb_eq in E. congruence.
  - by rewrite IH.
Qed.

Lemma setAll_cons k v es m : setAll ((k, v) :: es) m = setAll es (map_set k v m).
Proof. done. Qed.

#[local] Arguments setAll : simpl never.

(** Looking a key up after a run of [set]: the last entry written under the
    key, or what the map held before. *)
Lemma map_get_setAll k es m :
  map_get k (setAll es m) =
  match lastEntry k es with Some v => Some v | None => map_get k m end.
Proof.
  unfold lastEntry. revert m. induction es as [|[k' v'] es IH]; intros m; [done|].
  rewrite setAll_cons, IH, reverse_cons, map_get_app, map_get_set. simpl.
  destruct (map_get k (reverse es)); [done|].
  destruct (String.eqb k' k) eqn:E.
  - apply String.eqb_eq in E. subst k'. by rewrite decide_True.
  - apply String.eqb_neq in E. by rewrite decide_False.
Qed.

(** The keys after a run of [set]: the old ones, then the new ones in order
    of first occurrence. *)
Lemma map_keys_setAll es m :
  map_keys (setAll es m) =
  map_keys m ++ firstOccurrences (list_to_set (map_keys m)) es.*1.
Proof.
  revert m. induction es as [|[k v] es IH]; intros m; csimpl.
  - by rewrite app_nil_r.
  - rewrite setAll_cons, IH, map_keys_set.
    destruct (decide (k ∈ map_keys m)) as [Hin|Hin].
    + rewrite !bool_decide_eq_true_2; [done | | done].
      by apply elem_of_list_to_set.
    + rewrite !bool_decide_eq_false_2; [| | done].
      * rewrite <- app_assoc. csimpl. do 3 f_equal.
        rewrite list_to_set_app_L. csimpl. set_solver.
      * by rewrite elem_of_list_to_set.
Qed.

(** With pairwise distinct, fresh keys a run of [set] appends the entries. *)
Lemma setAll_NoDup es m :
  NoDup (map_keys m ++ es.*1) → setAll es m = m ++ es.
Proof.
  revert m. induction es as [|[k v] es IH]; intros m Hnd; csimpl.
  - by rewrite app_nil_r.
  - rewrite setAll_cons. csimpl in Hnd.
    assert (k ∉ map_keys m) as Hk.
    { apply NoDup_app in Hnd as (_ & Hd & _). intros Hin.
      apply (Hd k Hin). apply elem_of_cons. by left. }
    rewrite map_set_fresh by done. rewrite IH.
    + by rewrite <- app_assoc.
    + unfold map_keys in *. rewrite fmap_app. csimpl.
      rewrite <- app_assoc. done.
Qed.

Lemma firstOccurrences_NoDup (seen : gset string) (ks : list string) :
  NoDup (firstOccurrences seen ks) ∧
  ∀ k, k ∈ firstOccurrences seen ks ↔ k ∈ ks ∧ k ∉ seen.
Proof.
  revert seen. induction ks as [|k ks IH]; intros seen; simpl.
  - split; [constructor|]. intros k. rewrite elem_of_nil. tauto.
  - case_bool_decide as Hin.
    + destruct (IH seen) as [Hnd Hel]. split; [done|].
      intros k'. rewrite Hel, elem_of_cons. split; [tauto|].
      intros [[->|?] ?]; tauto.
    + destruct (IH ({[k]} ∪ seen)) as [Hnd Hel]. split.
      * constructor; [|done]. rewrite Hel, elem_of_union, elem_of_singleton. tauto.
      * intros k'. rewrite !elem_of_cons, Hel, elem_of_union, elem_of_singleton.
        destruct (decide (k' = k)) as [->|]; tauto.
Qed.

End JsMapFacts.

(** ** Syntax trees *)


Lemma inspectNode_default k p s ls tps subnodes typeChecker allTypes :
  isDeclarationKind k = false →
  inspectNode (mkNode k p s ls tps subnodes) typeChecker allTypes =
  inspectChildren subnodes typeChecker allTypes.
Proof.
  intros Hk.
  assert (∀ ns types,
    (fix forEachChild (ns : list Node) (types : JsMap Node) :=
       match ns with
       | [] => Ok types
       | subnode :: ns' =>
           types' ← inspectNode subnode typeChecker types;
           forEachChild ns' types'
       end) ns types = inspectChildren ns typeChecker types) as Hloop.
  { induction ns as [|n ns IH]; intros types; [done|]. simpl.
    destruct (inspectNode n typeChecker types); simpl; [apply IH | done]. }
  destruct k; try discriminate Hk; apply Hloop.
Qed.

Lemma inspectNode_declaration k p s ls tps subnodes typeChecker allTypes :
  isDeclarationKind k = true →
  let node := mkNode k p s ls tps subnodes in
  inspectNode node typeChecker allTypes =
  if eligible node
  then name ← getFullName node typeChecker; Ok (map_set name node allTypes)
  else Ok allTypes.
Proof.
  intros Hk node. unfold eligible.
  destruct k; try discriminate Hk; simpl;
    by destruct (isExportType _), (isGenericType _).
Qed.

Lemma entriesOf_app typeChecker nodes1 nodes2 :
  entriesOf typeChecker (nodes1 ++ nodes2) =
  es1 ← entriesOf typeChecker nodes1;
  es2 ← entriesOf typeChecker nodes2;
  Ok (es1 ++ es2).
Proof.
  induction nodes1 as [|n ns IH]; simpl.
  - by destruct (entriesOf typeChecker nodes2).
  - destruct (getFullName n typeChecker); simpl; [|done].
    rewrite IH. destruct (entriesOf typeChecker ns); simpl; [|done].
    by destruct (entriesOf typeChecker nodes2).
Qed.

Lemma setAll_app {A} (es1 es2 : list (string * A)) (m : JsMap A) :
  setAll (es1 ++ es2) m = setAll es2 (setAll es1 m).
Proof. apply foldl_app. Qed.

(** The traversal writes the entries of the eligible declarations it
    reaches, in pre-order, and throws where one of them has no name. *)
Lemma inspectNode_entries node typeChecker :
  ∀ allTypes,
    inspectNode node typeChecker allTypes =
    es ← entriesOf typeChecker (filter (λ n, eligible n = true) (declarationNodes node));
    Ok (setAll es allTypes).
Proof.
  induction node as [k p s ls tps subnodes IH] using Node_tree_ind.
  intros allTypes. destruct (isDeclarationKind k) eqn:Hk.
  - rewrite inspectNode_declaration by done. simpl. rewrite Hk.
    set (node := mkNode k p s ls tps subnodes).
    rewrite filter_cons, filter_nil. destruct (eligible node) eqn:He.
    + rewrite decide_True by done. simpl.
      by destruct (getFullName node typeChecker).
    + rewrite decide_False by done. done.
  - rewrite inspectNode_default by done. simpl. rewrite Hk.
    revert allTypes. induction IH as [|n ns Hn _ IHns]; intros allTypes; [done|].
    simpl. rewrite Hn, filter_app, entriesOf_app.
    destruct (entriesOf typeChecker (filter _ (declarationNodes n))) as [es1|]; simpl; [|done].
    rewrite IHns.
    destruct (entriesOf typeChecker (filter _ (concat _))) as [es2|]; simpl; [|done].
    by rewrite setAll_app.
Qed.

Lemma appendTypes_entries sourceFiles typeChecker :
  ∀ types,
    appendTypes sourceFiles typeChecker types =
    es ← entriesOf typeChecker (discovered sourceFiles);
    Ok (setAll es types).
Proof.
  unfold discovered.
  induction sourceFiles as [|sf sfs IH]; intros types; [done|].
  change (appendTypes (sf :: sfs) typeChecker types) with
    (inspectNode (sourceFileNode sf) typeChecker types ≫=
       appendTypes sfs typeChecker).
  cbn [map concat]. rewrite inspectNode_entries, filter_app, entriesOf_app.
  destruct (entriesOf typeChecker (filter _ (declarationNodes _))) as [es1|]; simpl; [|done].
  rewrite IH.
  destruct (entriesOf typeChecker (filter _ (concat _))) as [es2|]; simpl; [|done].
  by rewrite setAll_app.
Qed.

Lemma entriesOf_returns typeChecker nodes :
  Forall bound nodes ↔ ∃ es, entriesOf typeChecker nodes = Ok es.
Proof.
  induction nodes as [|n ns IH]; simpl.
  - split; [by exists [] | constructor].
  - unfold getFullName. split.
    + intros Hall. apply Forall_cons in Hall as [[sym Hsym] Hns].
      apply IH in Hns as [es Hes]. rewrite Hsym, Hes. simpl. eauto.
    + intros [es Hes]. destruct (symbolAtNode n) as [sym|] eqn:Hsym; [|done].
      simpl in Hes. destruct (entriesOf typeChecker ns) as [es'|] eqn:Hes'; [|done].
      constructor; [by exists sym | apply IH; eauto].
Qed.

Lemma entriesOf_throws typeChecker nodes e :
  entriesOf typeChecker nodes = Throw e →
  e = TypeError ∧ ∃ n, n ∈ nodes ∧ symbolAtNode n = None.
Proof.
  induction nodes as [|n ns IH]; simpl; [done|].
  unfold getFullName. destruct (symbolAtNode n) as [sym|] eqn:Hsym; simpl.
  - destruct (entriesOf typeChecker ns) as [es'|e'] eqn:Hes'; simpl; [done|].
    intros [= <-]. destruct IH as [-> (n' & Hin & Hn')]; [done|].
    split; [done|]. exists n'. split; [|done]. apply elem_of_cons. by right.
  - intros [= <-]. split; [done|]. exists n. split; [|done].
    apply elem_of_cons. by left.
Qed.

Lemma entriesOf_values typeChecker nodes es :
  entriesOf typeChecker nodes = Ok es → es.*2 = nodes.
Proof.
  revert es. induction nodes as [|n ns IH]; intros es; simpl.
  - by intros [= <-].
  - destruct (getFullName n typeChecker); simpl; [|done].
    destruct (entriesOf typeChecker ns) as [es'|]; simpl; [|done].
    intros [= <-]. csimpl. by rewrite (IH es').
Qed.


(** It throws only for want of a symbol on an eligible declaration. *)
Lemma appendTypes_throws sourceFiles typeChecker types e :
  appendTypes sourceFiles typeChecker types = Throw e →
  e = TypeError ∧ ∃ n, n ∈ discovered sourceFiles ∧ symbolAtNode n = None.
Proof.
  rewrite appendTypes_entries.
  destruct (entriesOf typeChecker (discovered sourceFiles)) as [es|e'] eqn:Hes;
    simpl; [done|].
  intros [= <-]. by apply (entriesOf_throws typeChecker).
Qed.

Lemma appendTypes_Ok sourceFiles typeChecker types types' :
  appendTypes sourceFiles typeChecker types = Ok types' →
  ∃ es, entriesOf typeChecker (discovered sourceFiles) = Ok es ∧
        types' = setAll es types.
Proof.
  rewrite appendTypes_entries.
  destruct (entriesOf typeChecker (discovered sourceFiles)) as [es|]; simpl; [|done].
  intros [= <-]. by exists es.
Qed.

Lemma map_get_entry {A} (m : JsMap A) :
  NoDup (map_keys m) → Forall (λ e, map_get e.1 m = Some e.2) m.
Proof.
  unfold map_keys. induction m as [|[k v] m IH]; csimpl; [constructor|].
  intros Hnd. apply NoDup_cons in Hnd as [Hk Hnd]. constructor.
  - simpl. by rewrite String.eqb_refl.
  - apply Forall_forall. intros [k' v'] Hin. simpl.
    destruct (String.eqb k k') eqn:E.
    + apply String.eqb_eq in E. subst k'. destruct Hk.
      apply list_elem_of_fmap. by exists (k, v').
    + specialize (IH Hnd). rewrite Forall_forall in IH. apply (IH _ Hin).
Qed.

(** * The claims *)

(** ** The declaration index *)

(** The traversal is a total function of the tree.  It
    returns whenever every declaration it reaches that passes the export and
    type-parameter tests has a symbol: the index then holds the old entries
    with those declarations written over them in order, and a declaration
    that fails the tests contributes nothing.  The lookup of the symbol in
    [getFullName] is asserted, not tested. *)
Theorem inspectNode_returns node typeChecker allTypes :
  Forall bound (filter (λ n, eligible n = true) (declarationNodes node)) →
  ∃ es,
    entriesOf typeChecker (filter (λ n, eligible n = true) (declarationNodes node)) = Ok es ∧
    inspectNode node typeChecker allTypes = Ok (setAll es allTypes) ∧
    (isDeclarationKind (kind node) = true → eligible node = false →
     inspectNode node typeChecker allTypes = Ok allTypes).
Proof.
  intros Hb. apply (entriesOf_returns typeChecker) in Hb as [es Hes].
  exists es. split; [done|]. rewrite inspectNode_entries, Hes. split; [done|].
  intros Hk He. destruct node as [k p s ls tps subnodes]. simpl in Hk, Hes.
  rewrite Hk, filter_cons, filter_nil, decide_False in Hes by (by rewrite He).
  by injection Hes as <-.
Qed.

(** C4 (amended).  A declaration node of one of the four kinds, with a
    symbol, is written to the index exactly when it is exported and
    declares no type parameter, whatever its kind: a generic interface or
    class is left out like a generic alias.  Otherwise the index is
    returned as it was. *)
Theorem inspectNode_records node typeChecker allTypes sym :
  isDeclarationKind (kind node) = true →
  symbolAtNode node = Some sym →
  inspectNode node typeChecker allTypes =
  Ok (if isExportType node && bool_decide (typeParameterCount node = 0)
      then map_set (replaceQuoted (getFullyQualifiedName typeChecker sym)) node allTypes
      else allTypes).
Proof.
  intros Hk Hsym. destruct node as [k p s ls tps subnodes]. simpl in Hk.
  rewrite inspectNode_declaration by done.
  unfold eligible, isGenericType, typeParameterCount, getFullName.
  rewrite Hsym. simpl.
  destruct (isExportType _); simpl; [|done].
  destruct tps as [ps|]; simpl; [|done].
  destruct ps; simpl; done.
Qed.

(** C5 (amended).  For a wildcard or absent query the index is built over
    the source files whose name is among the root file names, and
    [getRootNodes] returns one declaration for every distinct qualified name
    among the eligible declarations reached there: the names in order of
    first discovery, each with the last declaration discovered under it.
    When the names are pairwise distinct this is every such declaration,
    once, in discovery order. *)
Theorem getRootNodes_wildcard program fullName es :
  specificName fullName = None →
  entriesOf (getTypeChecker program) (discovered (rootSourceFiles program)) = Ok es →
  ∃ rootNodes,
    getRootNodes program fullName = Ok rootNodes ∧
    Forall2 (λ name node, lastEntry name es = Some node)
            (firstOccurrences ∅ es.*1) rootNodes ∧
    (NoDup es.*1 → rootNodes = discovered (rootSourceFiles program)) ∧
    (∀ sf, sf ∈ rootSourceFiles program ↔
           sf ∈ getSourceFiles program ∧ fileName sf ∈ getRootFileNames program).
Proof.
  intros Hq Hes. exists (map_values (setAll es [])).
  unfold getRootNodes. rewrite Hq, appendTypes_entries, Hes. simpl.
  split; [done|]. split; [|split].
  - pose proof (map_keys_setAll es []) as Hkeys. simpl in Hkeys.
    rewrite <- Hkeys. unfold map_keys, map_values.
    apply Forall2_fmap, Forall_Forall2_diag.
    eapply Forall_impl.
    + apply map_get_entry. rewrite Hkeys.
      apply (firstOccurrences_NoDup ∅ es.*1).
    + intros [k n] Hget. simpl in *.
      rewrite map_get_setAll in Hget. by destruct (lastEntry k es).
  - intros Hnd. rewrite setAll_NoDup by done. simpl.
    by apply (entriesOf_values (getTypeChecker program)).
  - intros sf. unfold rootSourceFiles. rewrite list_elem_of_filter. tauto.
Qed.

(** ** Lookup by name *)

(** C2.  A name found in the index of the project files resolves to the
    declaration that index holds for it, whatever the external files
    contain: programs that differ only in their external files give the
    same answer. *)
Theorem findNamedNode_project_first program fullName projectTypes node :
  appendTypes (projectFiles program) (getTypeChecker program) [] = Ok projectTypes →
  map_get fullName projectTypes = Some node →
  findNamedNode program fullName = Ok node ∧
  node ∈ discovered (projectFiles program) ∧
  (∀ sf, sf ∈ projectFiles program → isExternal sf = false) ∧
  (∀ program',
     getTypeChecker program' = getTypeChecker program →
     projectFiles program' = projectFiles program →
     findNamedNode program' fullName = Ok node).
Proof.
  intros Hp Hget. split; [|split; [|split]].
  - unfold findNamedNode. rewrite Hp. simpl. by rewrite Hget.
  - apply appendTypes_Ok in Hp as (es & Hes & ->).
    apply map_get_Some_elem in Hget. unfold map_values in Hget.
    apply entriesOf_values in Hes. rewrite <- Hes.
    apply list_elem_of_fmap in Hget as ([k n] & -> & Hin). simpl.
    assert (∀ es' (m : JsMap Node) e, e ∈ setAll es' m → e ∈ m ∨ e ∈ es') as Hsub.
    { clear. induction es' as [|[k v] es' IH]; intros m e; [by left|].
      rewrite setAll_cons. intros Hin. apply IH in Hin as [Hin|Hin].
      - assert (e ∈ m ∨ e = (k, v)) as [?| ->]; [|by left|right; by left].
        clear -Hin. induction m as [|[k' v'] m IHm]; simpl in Hin.
        + apply list_elem_of_singleton in Hin. by right.
        + destruct (String.eqb k' k) eqn:E.
          * apply String.eqb_eq in E. subst k'.
            apply elem_of_cons in Hin as [->|Hin]; [by right|].
            left. by right.
          * apply elem_of_cons in Hin as [->|Hin]; [left; by left|].
            destruct (IHm Hin) as [?|?]; [left; by right | by right].
      - right. by right. }
    destruct (Hsub _ _ _ Hin) as [Hnil|Hes']; [by apply elem_of_nil in Hnil|].
    apply list_elem_of_fmap. by exists (k, n).
  - intros sf Hin. unfold projectFiles in Hin.
    by apply list_elem_of_filter in Hin as [? _].
  - intros program' Htc Hfiles. unfold findNamedNode.
    rewrite Htc, Hfiles, Hp. simpl. by rewrite Hget.
Qed.

(** C6.  With both indexes built, [findNamedNode] throws [NoRootTypeError]
    carrying the requested name exactly when the name is in neither, throws
    nothing else, and returns the declaration of one of the indexes when the
    name is in either. *)
Theorem findNamedNode_NoRootType program fullName projectTypes externalTypes :
  appendTypes (projectFiles program) (getTypeChecker program) [] = Ok projectTypes →
  appendTypes (externalFiles program) (getTypeChecker program) [] = Ok externalTypes →
  (findNamedNode program fullName = Throw (NoRootTypeError fullName) ↔
     map_get fullName projectTypes = None ∧ map_get fullName externalTypes = None) ∧
  (∀ e, findNamedNode program fullName = Throw e → e = NoRootTypeError fullName) ∧
  (is_Some (map_get fullName projectTypes) ∨ is_Some (map_get fullName externalTypes) →
   ∃ node, findNamedNode program fullName = Ok node ∧
           (map_get fullName projectTypes = Some node ∨
            map_get fullName externalTypes = Some node)).
Proof.
  intros Hp He.
  assert (findNamedNode program fullName =
          match map_get fullName projectTypes with
          | Some node => Ok node
          | None =>
              match map_get fullName externalTypes with
              | Some node => Ok node
              | None => Throw (NoRootTypeError fullName)
              end
          end) as ->.
  { unfold findNamedNode. rewrite Hp. simpl.
    destruct (map_get fullName projectTypes) as [n|] eqn:Hget; [done|].
    apply appendTypes_Ok in He as (es & Hes & ->).
    rewrite appendTypes_entries, Hes. simpl.
    rewrite !map_get_setAll, Hget. simpl.
    by destruct (lastEntry fullName es). }
  destruct (map_get fullName projectTypes) as [n|],
           (map_get fullName externalTypes) as [n'|];
    (split; [split; [done | by intros [? ?]] | split; [intros e ?; congruence|]]).
  - intros _. exists n. split; [done | by left].
  - intros _. exists n. split; [done | by left].
  - intros _. exists n'. split; [done | by right].
  - intros [[? ?]|[? ?]]; discriminate.
Qed.

(** ** Qualified names *)

Lemma lineTerminatorAt_before_quote c p t :
  lineTerminatorAt (String c (p +:+ String dquote t)) = lineTerminatorAt (String c p).
Proof.
  destruct p as [|c1 [|c2 p]]; simpl; [| |done].
  - destruct t; [done|]. by rewrite andb_false_r.
  - by rewrite andb_false_r.
Qed.

#[local] Arguments lineTerminatorAt : simpl never.

Lemma matchTail_noQuote s : noQuote s = true → matchTail s = None.
Proof.
  induction s as [|c s IH]; simpl; [done|].
  intros [Hc Hs]%andb_true_iff. rewrite (IH Hs).
  apply negb_true_iff in Hc. rewrite Hc. simpl.
  destruct (lineTerminatorAt (String c s)); by destruct s.
Qed.

Lemma matchTail_step c s :
  matchTail (String c s) =
  match (if lineTerminatorAt (String c s) then None else matchTail s) with
  | Some rest => Some rest
  | None =>
      match s with
      | String c' rest =>
          if (c =? dquote)%char && (c' =? dot)%char then Some rest else None
      | EmptyString => None
      end
  end.
Proof. done. Qed.

Lemma matchTail_closing path rest :
  noLineTerminator path = true → noQuote rest = true →
  matchTail (path +:+ String dquote (String dot rest)) = Some rest.
Proof.
  intros Hp Hr. induction path as [|c p IH].
  - change ("" +:+ String dquote (String dot rest))
      with (String dquote (String dot rest)).
    rewrite matchTail_step, (matchTail_noQuote (String dot rest)) by done.
    by destruct (lineTerminatorAt _).
  - simpl in Hp. apply andb_true_iff in Hp as [Hc Hp].
    apply negb_true_iff in Hc.
    change (String c p +:+ String dquote (String dot rest))
      with (String c (p +:+ String dquote (String dot rest))).
    by rewrite matchTail_step, lineTerminatorAt_before_quote, Hc, (IH Hp).
Qed.

Lemma matchTail_Some s rest :
  matchTail s = Some rest → ∃ mid, s = mid +:+ String dquote (String dot rest).
Proof.
  revert rest. induction s as [|c s IH]; intros rest; simpl; [done|].
  destruct (if lineTerminatorAt (String c s) then None else matchTail s)
    as [r|] eqn:Hdeep.
  - intros [= ->]. destruct (lineTerminatorAt (String c s)); [done|].
    destruct (IH _ Hdeep) as [mid ->]. by exists (String c mid).
  - destruct s as [|c' r]; [done|].
    destruct (Ascii.eqb c dquote) eqn:Hc; [|done].
    destruct (Ascii.eqb c' dot) eqn:Hc'; [|done].
    apply Ascii.eqb_eq in Hc, Hc'. subst. intros [= ->]. by exists "".
Qed.

Lemma replaceQuoted_noQuote s : noQuote s = true → replaceQuoted s = s.
Proof.
  induction s as [|c s IH]; simpl; [done|].
  intros [Hc Hs]%andb_true_iff. apply negb_true_iff in Hc.
  by rewrite Hc, (IH Hs).
Qed.

Lemma replaceQuoted_cases s :
  replaceQuoted s = s ∨
  ∃ pre mid post,
    s = pre +:+ String dquote (mid +:+ String dquote (String dot post)) ∧
    replaceQuoted s = pre +:+ post.
Proof.
  induction s as [|c s IH]; simpl; [by left|].
  assert (String c (replaceQuoted s) = String c s ∨
          ∃ pre mid post,
            String c s = pre +:+ String dquote (mid +:+ String dquote (String dot post)) ∧
            String c (replaceQuoted s) = pre +:+ post) as Hskip.
  { destruct IH as [->|(pre & mid & post & -> & ->)]; [by left|].
    right. by exists (String c pre), mid, post. }
  destruct (Ascii.eqb c dquote) eqn:Hc; [|done].
  destruct (matchTail s) as [rest|] eqn:Hm; [|done].
  apply Ascii.eqb_eq in Hc. subst c.
  apply matchTail_Some in Hm as [mid ->].
  right. by exists "", mid, rest.
Qed.

(** [getFullName] returns the fully qualified name of the
    declaration's symbol with the first quoted segment removed: what the
    pattern matches runs from a double quote to the last quote-and-dot after
    it on the same line, wherever the quote stands.  A name without a
    double quote comes back unchanged; a name that starts with a quoted
    path (no line break in it) followed by a dot and a remainder without a
    double quote comes back as that remainder, whatever the path; in every
    case the result is the name or the name with one such segment cut. *)
Theorem getFullName_strips node typeChecker sym :
  symbolAtNode node = Some sym →
  ∃ name,
    getFullName node typeChecker = Ok name ∧
    (noQuote (getFullyQualifiedName typeChecker sym) = true →
     name = getFullyQualifiedName typeChecker sym) ∧
    (∀ path rest,
       getFullyQualifiedName typeChecker sym =
         String dquote (path +:+ String dquote (String dot rest)) →
       noLineTerminator path = true → noQuote rest = true →
       name = rest) ∧
    (name = getFullyQualifiedName typeChecker sym ∨
     ∃ pre mid post,
       getFullyQualifiedName typeChecker sym =
         pre +:+ String dquote (mid +:+ String dquote (String dot post)) ∧
       name = pre +:+ post).
Proof.
  intros Hsym. unfold getFullName. rewrite Hsym.
  exists (replaceQuoted (getFullyQualifiedName typeChecker sym)).
  split; [done|]. split; [apply replaceQuoted_noQuote|]. split.
  - intros path rest -> Hp Hr. simpl. by rewrite matchTail_closing.
  - apply replaceQuoted_cases.
Qed.

(** ** The collector *)

Lemma js_in_false {A} name (object : gmap string A) :
  js_in name object = false ↔ object !! name = None ∧ name ∉ objectPrototypeKeys.
Proof.
  unfold js_in. rewrite orb_false_iff, !bool_decide_eq_false.
  rewrite <- eq_None_not_Some. done.
Qed.

Lemma grows_refl typeFormatter store : grows typeFormatter store store.
Proof.
  split; [done|]. exists []. rewrite app_nil_r.
  split; [done|]. split; [constructor|]. split.
  - by intros child Hin%elem_of_nil.
  - intros name ?. by left.
Qed.

Lemma grows_trans typeFormatter store1 store2 store3 :
  grows typeFormatter store1 store2 → grows typeFormatter store2 store3 →
  grows typeFormatter store1 store3.
Proof.
  intros [Hkeep1 (new1 & Hlog1 & Hnd1 & Hnew1 & Hdom1)]
         [Hkeep2 (new2 & Hlog2 & Hnd2 & Hnew2 & Hdom2)].
  split; [by auto|]. exists (new1 ++ new2).
  split; [by rewrite Hlog2, Hlog1, app_assoc|]. split; [|split].
  - rewrite fmap_app. apply NoDup_app. split; [done|]. split; [|done].
    intros name (c1 & -> & Hc1)%list_elem_of_fmap (c2 & Heq & Hc2)%list_elem_of_fmap.
    destruct (Hnew1 c1 Hc1) as [_ Hsome]. destruct (Hnew2 c2 Hc2) as [Hnone _].
    rewrite <- Heq in Hnone. congruence.
  - intros child [Hin|Hin]%elem_of_app.
    + destruct (Hnew1 child Hin) as [? ?]. split; [done | by auto].
    + destruct (Hnew2 child Hin) as [Hnone ?]. split; [|done].
      destruct (definitions store1 !! getName child) as [d|] eqn:Hd; [|done].
      apply Hkeep1 in Hd. congruence.
  - intros name Hsome. rewrite fmap_app, elem_of_app.
    destruct (Hdom2 name Hsome) as [Hsome2|?]; [|by auto].
    destruct (Hdom1 name Hsome2); by auto.
Qed.

Lemma materialize_grows typeFormatter store child :
  grows typeFormatter store (materialize typeFormatter store child).
Proof.
  unfold materialize. destruct (js_in _ _) eqn:Hin; [apply grows_refl|].
  apply js_in_false in Hin as [Hnone _]. split; simpl.
  - intros name d Hd. rewrite lookup_insert_ne; [done|]. congruence.
  - exists [child]. split; [done|]. split; [apply NoDup_singleton|]. split.
    + intros c ->%list_elem_of_singleton. by rewrite lookup_insert_eq.
    + intros name. rewrite lookup_insert. case_decide as Heq.
      * intros _. right. subst name. apply list_elem_of_singleton. done.
      * by left.
Qed.

Lemma foldl_materialize_grows typeFormatter children store :
  grows typeFormatter store (foldl (materialize typeFormatter) store children).
Proof.
  revert store. induction children as [|c cs IH]; intros store; simpl.
  - apply grows_refl.
  - eapply grows_trans; [apply materialize_grows | apply IH].
Qed.

Lemma appendRootChildDefinitions_grows typeFormatter rootType store :
  grows typeFormatter store (appendRootChildDefinitions typeFormatter rootType store).2.
Proof.
  unfold appendRootChildDefinitions.
  destruct (checkNames _ _); simpl; [apply foldl_materialize_grows | apply grows_refl].
Qed.

Lemma forEachRootType_grows typeFormatter rootTypes store :
  grows typeFormatter store (forEachRootType typeFormatter rootTypes store).2.
Proof.
  revert store. induction rootTypes as [|t ts IH]; intros store; simpl.
  - apply grows_refl.
  - pose proof (appendRootChildDefinitions_grows typeFormatter t store) as Hstep.
    destruct (appendRootChildDefinitions typeFormatter t store) as [[[]|e] store'];
      simpl in *; [|done].
    eapply grows_trans; [apply Hstep | apply IH].
Qed.

(** C7.  An invocation of the collector keeps every entry the mapping
    already holds and asks the type formatter for no child whose name is a
    key, and after a throw the mapping is as the invocation found it.
    Over any sequence of invocations on a mapping that starts empty, every
    key of the mapping has its definition computed by exactly one call and
    stored under it. *)
Theorem appendRootChildDefinitions_keeps typeFormatter rootType rootTypes store :
  grows typeFormatter store (appendRootChildDefinitions typeFormatter rootType store).2 ∧
  (returns (appendRootChildDefinitions typeFormatter rootType store).1 = false →
   (appendRootChildDefinitions typeFormatter rootType store).2 = store) ∧
  grows typeFormatter store (forEachRootType typeFormatter rootTypes store).2 ∧
  let final := (forEachRootType typeFormatter rootTypes emptyStore).2 in
  NoDup (getName <$> formatted final) ∧
  (∀ name, is_Some (definitions final !! name) ↔ name ∈ getName <$> formatted final) ∧
  (∀ child, child ∈ formatted final →
     definitions final !! getName child =
       Some (getDefinition typeFormatter (getType child))).
Proof.
  split; [apply appendRootChildDefinitions_grows|]. split; [|split].
  - unfold appendRootChildDefinitions. by destruct (checkNames _ _).
  - apply forEachRootType_grows.
  - intros final.
    destruct (forEachRootType_grows typeFormatter rootTypes emptyStore)
      as [_ (new & Hlog & Hnd & Hnew & Hdom)].
    fold final in Hlog, Hnew, Hdom. simpl in Hlog. rewrite Hlog.
    split; [done|]. split.
    + intros name. split.
      * intros Hsome. destruct (Hdom name Hsome) as [[? Hempty]|Hin]; [|done].
        simpl in Hempty. by rewrite lookup_empty in Hempty.
      * intros (c & -> & Hc)%list_elem_of_fmap.
        destruct (Hnew c Hc) as [_ ->]. by eexists.
    + intros child Hc. by destruct (Hnew child Hc).
Qed.

(** The first filter keeps the definition types, the second the first child
    of every id: the ids that are left are pairwise distinct. *)
Lemma filterSeen_NoDup seen children :
  NoDup (getId <$> filterSeen seen children) ∧
  ∀ child, child ∈ filterSeen seen children → child ∈ children ∧ getId child ∉ seen.
Proof.
  revert seen. induction children as [|c cs IH]; intros seen; simpl.
  - split; [constructor|]. by intros child Hin%elem_of_nil.
  - case_bool_decide as Hseen.
    + destruct (IH seen) as [Hnd Hin]. split; [done|].
      intros child Hc. destruct (Hin child Hc). split; [by right | done].
    + destruct (IH ({[getId c]} ∪ seen)) as [Hnd Hin]. split.
      * csimpl. constructor; [|done].
        intros (c' & Heq & Hc')%list_elem_of_fmap.
        destruct (Hin c' Hc') as [_ Hnot]. apply Hnot.
        rewrite elem_of_union, elem_of_singleton. by left.
      * intros child [->|Hc]%elem_of_cons; [split; [by left | done]|].
        destruct (Hin child Hc) as [? Hnot]. split; [by right|].
        intros ?. apply Hnot. rewrite elem_of_union. by right.
Qed.

Lemma definitionChildren_ids typeFormatter rootType :
  NoDup (getId <$> definitionChildren typeFormatter rootType).
Proof. apply filterSeen_NoDup. Qed.

Lemma collidingName_cons child children name :
  collidingName children name → collidingName (child :: children) name.
Proof.
  intros (c1 & c2 & H1 & H2 & ?). exists c1, c2.
  split; [by right|]. split; [by right | done].
Qed.

(** What the loop of the collision check decides when no id is the empty
    string: it returns exactly when the children agree with the ids already
    recorded and with each other, and the message of its error carries a
    name under which two ids differ. *)
Lemma checkNames_spec children :
  ∀ ids : gmap string string,
    (∀ name id, ids !! name = Some id → id ≠ "") →
    Forall (λ c, getId c ≠ "") children →
    match checkNames ids children with
    | Ok _ =>
        (∀ c id, c ∈ children → ids !! getName c = Some id → getId c = id) ∧
        (∀ c1 c2, c1 ∈ children → c2 ∈ children →
                  getName c1 = getName c2 → getId c1 = getId c2)
    | Throw e =>
        ∃ name, e = Error (collisionMessage name) ∧
          ((∃ c id, c ∈ children ∧ getName c = name ∧
                    ids !! name = Some id ∧ getId c ≠ id) ∨
           collidingName children name)
    end.
Proof.
  induction children as [|c cs IH]; intros ids Hids Hne; simpl.
  - split; intros; by match goal with H : _ ∈ [] |- _ => apply elem_of_nil in H end.
  - apply Forall_cons in Hne as [Hc Hcs].
    assert ((∃ prev, ids !! getName c = Some prev ∧ getId c ≠ prev) ∨
            (∀ id, ids !! getName c = Some id → getId c = id)) as [Hbad|Hgood].
    { destruct (ids !! getName c) as [prev|]; [|by right].
      destruct (decide (getId c = prev)) as [->|?]; [right | left; eauto].
      by intros id [= ->]. }
    + destruct Hbad as (prev & Hprev & Hdiff). rewrite Hprev.
      apply Hids in Hprev as Hnonempty.
      apply String.eqb_neq in Hnonempty, Hdiff. rewrite Hnonempty, Hdiff. simpl.
      exists (getName c). split; [done|]. left. exists c, prev.
      apply String.eqb_neq in Hdiff. split; [by left | done].
    + assert ((match ids !! getName c with
               | Some previousId =>
                   negb (String.eqb previousId "") &&
                   negb (String.eqb (getId c) previousId)
               | None => false
               end) = false) as ->.
      { destruct (ids !! getName c) as [prev|] eqn:Hprev; [|done].
        rewrite <- (Hgood prev eq_refl), String.eqb_refl. apply andb_false_r. }
      specialize (IH (<[getName c := getId c]> ids)).
      destruct (checkNames _ cs) as [[]|e].
      * destruct IH as [HA HB]; [|done|].
        { intros name id. rewrite lookup_insert. case_decide; [|by apply Hids].
          by intros [= <-]. }
        assert (∀ c', c' ∈ cs → getName c' = getName c → getId c' = getId c) as Hsame.
        { intros c' Hin Hname. apply HA; [done|]. by rewrite Hname, lookup_insert_eq. }
        split.
        -- intros c' id [->|Hin]%elem_of_cons Hid; [by apply Hgood|].
           destruct (decide (getName c' = getName c)) as [Heq|Hneq].
           ++ rewrite (Hsame c' Hin Heq). apply Hgood. by rewrite <- Heq.
           ++ apply HA; [done|]. by rewrite lookup_insert_ne.
        -- intros c1 c2 [->|H1]%elem_of_cons [->|H2]%elem_of_cons Hname;
             [done | symmetry; by apply Hsame | by apply Hsame | by apply HB].
      * destruct IH as (name & -> & Hcause); [|done|].
        { intros name id. rewrite lookup_insert. case_decide; [|by apply Hids].
          by intros [= <-]. }
        exists name. split; [done|].
        destruct Hcause as [(c' & id & Hin & Hname & Hid & Hdiff)|Hcol];
          [|right; by apply collidingName_cons].
        rewrite lookup_insert in Hid. case_decide as Heq.
        -- injection Hid as <-. right. exists c', c.
           split; [by right|]. split; [by left | done].
        -- left. exists c', id. split; [by right | done].
Qed.

(** With no empty id among the children of a root, two children that share
    their name and differ in their id make the invocation throw, the
    message carries such a name, and the mapping is left alone. *)
Lemma appendRootChildDefinitions_collision typeFormatter rootType store name :
  Forall (λ c, getId c ≠ "") (definitionChildren typeFormatter rootType) →
  collidingName (definitionChildren typeFormatter rootType) name →
  ∃ name',
    collidingName (definitionChildren typeFormatter rootType) name' ∧
    appendRootChildDefinitions typeFormatter rootType store =
      (Throw (Error (collisionMessage name')), store).
Proof.
  intros Hne (c1 & c2 & H1 & H2 & Hn1 & Hn2 & Hdiff).
  unfold appendRootChildDefinitions.
  pose proof (checkNames_spec (definitionChildren typeFormatter rootType) ∅) as Hspec.
  destruct (checkNames ∅ _) as [[]|e].
  - destruct Hspec as [_ Hagree]; [|done|].
    { intros ? ?. by rewrite lookup_empty. }
    destruct Hdiff. apply Hagree; [done..|congruence].
  - destruct Hspec as (name' & -> & [(c & id & _ & _ & Hid & _)|Hcol]); [|done| |].
    { intros ? ?. by rewrite lookup_empty. }
    + by rewrite lookup_empty in Hid.
    + by exists name'.
Qed.

(** The children the type formatter was asked about over a run that starts
    from an empty mapping: no two of them share a name, so no name stands
    for two ids. *)
Lemma formatted_names_unique typeFormatter rootTypes child1 child2 :
  let final := (forEachRootType typeFormatter rootTypes emptyStore).2 in
  child1 ∈ formatted final → child2 ∈ formatted final →
  getName child1 = getName child2 → child1 = child2.
Proof.
  intros final H1 H2 Hname.
  destruct (forEachRootType_grows typeFormatter rootTypes emptyStore)
    as [_ (new & Hlog & Hnd & _)].
  fold final in Hlog. simpl in Hlog. rewrite Hlog in H1, H2.
  apply list_elem_of_lookup in H1 as [i Hi], H2 as [j Hj].
  assert (i = j) as ->; [|congruence].
  eapply NoDup_lookup; [exact Hnd|..]; rewrite list_lookup_fmap.
  - by rewrite Hi.
  - by rewrite Hj, Hname.
Qed.

(** ** The document *)

Lemma schemaDocument_definitions rootTypeDefinition defs :
  schemaDocument rootTypeDefinition defs !! "definitions" = Some (JObj (JObj <$> defs)).
Proof. apply lookup_insert_eq. Qed.

Lemma schemaDocument_field rootTypeDefinition defs key :
  key ≠ "definitions" →
  schemaDocument rootTypeDefinition defs !! key =
  match rootTypeDefinition !! key with
  | Some v => Some v
  | None => if decide (key = "$schema") then Some (JStr draft07) else None
  end.
Proof.
  intros Hkey. unfold schemaDocument, spread.
  rewrite lookup_insert_ne by done. rewrite lookup_union.
  destruct (rootTypeDefinition !! key) as [v|]; simpl.
  - by destruct ({["$schema" := JStr draft07]} !! key).
  - rewrite lookup_singleton. case_decide; case_decide; done || congruence.
Qed.

Lemma schemaDocument_empty defs :
  schemaDocument ∅ defs =
  <["definitions" := JObj (JObj <$> defs)]> {["$schema" := JStr draft07]}.
Proof. unfold schemaDocument, spread. by rewrite (left_id_L ∅ (∪)). Qed.

(** C3 (amended).  When the roots are found and the collector throws on none
    of them, [createSchema] returns a document whose [definitions] field is
    the collected mapping.  With exactly one root, every field of the root's
    definition other than [definitions] is at the top level with its value,
    and [$schema] is the draft-07 address unless the root's definition has
    a [$schema] field of its own, which then stands in its place.  With no
    root or several, the document has the draft-07 [$schema] and
    [definitions], and nothing else. *)
Theorem createSchema_document program nodeParser typeFormatter fullName rootNodes store :
  getRootNodes program fullName = Ok rootNodes →
  forEachRootType typeFormatter (map (createType nodeParser) rootNodes) emptyStore
    = (Ok tt, store) →
  ∃ schema,
    createSchema program nodeParser typeFormatter fullName = Ok schema ∧
    schema !! "definitions" = Some (JObj (JObj <$> definitions store)) ∧
    match rootNodes with
    | [rootNode] =>
        let rootTypeDefinition :=
          getDefinition typeFormatter (createType nodeParser rootNode) in
        (∀ key v, key ≠ "definitions" → rootTypeDefinition !! key = Some v →
                  schema !! key = Some v) ∧
        (rootTypeDefinition !! "$schema" = None →
         schema !! "$schema" = Some (JStr draft07)) ∧
        (∀ key, is_Some (schema !! key) →
                is_Some (rootTypeDefinition !! key) ∨
                key = "$schema" ∨ key = "definitions")
    | _ =>
        schema = <["definitions" := JObj (JObj <$> definitions store)]>
                   {["$schema" := JStr draft07]}
    end.
Proof.
  intros Hroots Hrun. unfold createSchema. rewrite Hroots. simpl. rewrite Hrun.
  eexists. split; [done|]. split; [apply schemaDocument_definitions|].
  destruct rootNodes as [|rootNode [|rootNode' rest]]; simpl;
    [apply schemaDocument_empty | | apply schemaDocument_empty].
  unfold getRootTypeDefinition. split; [|split].
  - intros key v Hkey Hv. by rewrite schemaDocument_field, Hv.
  - intros Hnone. by rewrite schemaDocument_field, Hnone.
  - intros key Hsome. destruct (decide (key = "definitions")) as [->|Hkey]; [by auto|].
    rewrite schemaDocument_field in Hsome by done.
    destruct (getDefinition _ _ !! key); [left; by eexists|].
    case_decide; [by auto|]. by destruct Hsome.
Qed.

(** C10.  For a wildcard or absent query over root files in which the
    traversal reaches no eligible declaration, [createSchema] returns, and
    the document has the draft-07 [$schema], an empty [definitions], and
    nothing else. *)
Theorem createSchema_no_roots program nodeParser typeFormatter fullName :
  specificName fullName = None →
  discovered (rootSourceFiles program) = [] →
  createSchema program nodeParser typeFormatter fullName =
    Ok (<["definitions" := JObj ∅]> {["$schema" := JStr draft07]}) ∧
  ∀ key, is_Some ((<["definitions" := JObj ∅]> {["$schema" := JStr draft07]}
                    : Schema) !! key) ↔
         key = "$schema" ∨ key = "definitions".
Proof.
  intros Hq Hnone. split.
  - unfold createSchema, getRootNodes.
    rewrite Hq, appendTypes_entries, Hnone. simpl.
    by rewrite schemaDocument_empty, fmap_empty.
  - intros key. rewrite lookup_insert. case_decide as Hd.
    + split; [by auto | by eexists].
    + rewrite lookup_singleton. case_decide as Hs.
      * split; [by auto | by eexists].
      * split; [by intros [? ?] | by intros [?|?]].
Qed.

(** * The theorems on the sample programs *)

(** The traversal of [/src/main.ts] returns: it records [A] and the [B]
    inside the namespace and skips the generic [Box] and the local [D]. *)
Lemma inspectNode_returns_witness :
  ∃ es,
    entriesOf sampleChecker
      (filter (λ n, eligible n = true) (declarationNodes (sourceFileNode mainFile))) = Ok es ∧
    inspectNode (sourceFileNode mainFile) sampleChecker [] = Ok (setAll es []) ∧
    (isDeclarationKind (kind (sourceFileNode mainFile)) = true →
     eligible (sourceFileNode mainFile) = false →
     inspectNode (sourceFileNode mainFile) sampleChecker [] = Ok []).
Proof.
  apply (inspectNode_returns (sourceFileNode mainFile) sampleChecker []).
  vm_compute. repeat (constructor; [by eexists|]). constructor.
Defined.

(** The exported interface [A] is written under its name. *)
Lemma inspectNode_records_witness :
  inspectNode interfaceA sampleChecker [] = Ok [("A", interfaceA)].
Proof.
  exact (inspectNode_records interfaceA sampleChecker [] (symbolIn "/src/main" "A")
           eq_refl eq_refl).
Defined.

(** C4, as stated, fails on an exported generic interface: eligible in the
    words of the specification, and not written to the index. *)
Lemma generic_interface_not_indexed :
  ¬ (∀ node typeChecker sym,
       isDeclarationKind (kind node) = true →
       symbolAtNode node = Some sym →
       (eligibleAsSpecified node = true ↔
        inspectNode node typeChecker [] =
          Ok [(replaceQuoted (getFullyQualifiedName typeChecker sym), node)])).
Proof.
  intros Hclaim.
  destruct (Hclaim genericBox sampleChecker (symbolIn "/src/main" "Box") eq_refl eq_refl)
    as [Hindexed _].
  specialize (Hindexed eq_refl). vm_compute in Hindexed. discriminate Hindexed.
Qed.

(** The roots of the sample program under the wildcard: [A], and the [B]
    of the namespace. *)
Lemma getRootNodes_wildcard_witness :
  ∃ rootNodes,
    getRootNodes sampleProgram (Some "*") = Ok rootNodes ∧
    Forall2 (λ name node, lastEntry name [("A", interfaceA); ("B", interfaceB)] = Some node)
            (firstOccurrences ∅ ["A"; "B"]) rootNodes ∧
    (NoDup ["A"; "B"] → rootNodes = discovered (rootSourceFiles sampleProgram)) ∧
    (∀ sf, sf ∈ rootSourceFiles sampleProgram ↔
           sf ∈ getSourceFiles sampleProgram ∧
           fileName sf ∈ getRootFileNames sampleProgram).
Proof.
  exact (getRootNodes_wildcard sampleProgram (Some "*")
           [("A", interfaceA); ("B", interfaceB)] eq_refl eq_refl).
Defined.

(** C5, as stated, fails on two merged declarations of one interface: both
    are eligible and reached, and only the second is returned. *)
Lemma merged_declarations_returned_once :
  ¬ (∀ program fullName,
       specificName fullName = None →
       Forall bound (discovered (rootSourceFiles program)) →
       getRootNodes program fullName = Ok (discovered (rootSourceFiles program))).
Proof.
  intros Hclaim. specialize (Hclaim mergedProgram (Some "*") eq_refl).
  vm_compute in Hclaim. discriminate Hclaim.
  repeat (constructor; [by eexists|]). constructor.
Qed.

(** The project's [A] is returned although a dependency declares an [A]
    too, and although indexing that dependency would throw. *)
Lemma findNamedNode_project_first_witness :
  findNamedNode brokenDependencyProgram "A" = Ok interfaceA ∧
  interfaceA ∈ discovered (projectFiles brokenDependencyProgram) ∧
  (∀ sf, sf ∈ projectFiles brokenDependencyProgram → isExternal sf = false) ∧
  (∀ program',
     getTypeChecker program' = getTypeChecker brokenDependencyProgram →
     projectFiles program' = projectFiles brokenDependencyProgram →
     findNamedNode program' "A" = Ok interfaceA).
Proof.
  exact (findNamedNode_project_first brokenDependencyProgram "A"
           [("A", interfaceA); ("B", interfaceB)] interfaceA eq_refl eq_refl).
Defined.

(** [Z] is declared nowhere; [E] is declared by the dependency alone. *)
Lemma findNamedNode_NoRootType_witness :
  findNamedNode sampleProgram "Z" = Throw (NoRootTypeError "Z") ∧
  ∃ node, findNamedNode sampleProgram "E" = Ok node.
Proof.
  split.
  - apply (findNamedNode_NoRootType sampleProgram "Z"
             [("A", interfaceA); ("B", interfaceB)]
             [("A", libraryA); ("E", libraryE)] eq_refl eq_refl).
    split; reflexivity.
  - destruct (findNamedNode_NoRootType sampleProgram "E"
                [("A", interfaceA); ("B", interfaceB)]
                [("A", libraryA); ("E", libraryE)] eq_refl eq_refl)
      as (_ & _ & Hfound).
    destruct Hfound as (node & Hnode & _).
    + right. exists libraryE. reflexivity.
    + exists node. exact Hnode.
Defined.

(** An invocation that throws leaves the store as it found it. *)
Lemma appendRootChildDefinitions_keeps_witness :
  (appendRootChildDefinitions (formatterWith [barOtherId; barThirdId])
     (OtherType "root") emptyStore).2 = emptyStore.
Proof.
  apply (appendRootChildDefinitions_keeps (formatterWith [barOtherId; barThirdId])
           (OtherType "root") [] emptyStore).
  reflexivity.
Defined.

(** The name of [A] in the module [/src/main]. *)
Lemma getFullName_strips_witness :
  ∃ name,
    getFullName interfaceA sampleChecker = Ok name ∧
    (noQuote (quoted "/src/main" +:+ ".A") = true → name = quoted "/src/main" +:+ ".A") ∧
    (∀ path rest,
       quoted "/src/main" +:+ ".A" =
         String dquote (path +:+ String dquote (String dot rest)) →
       noLineTerminator path = true → noQuote rest = true →
       name = rest) ∧
    (name = quoted "/src/main" +:+ ".A" ∨
     ∃ pre mid post,
       quoted "/src/main" +:+ ".A" =
         pre +:+ String dquote (mid +:+ String dquote (String dot post)) ∧
       name = pre +:+ post).
Proof.
  exact (getFullName_strips interfaceA sampleChecker (symbolIn "/src/main" "A") eq_refl).
Defined.

(** The document for the single root [A]: the reference to [A] at the top
    level, and [A] under [definitions]. *)
Lemma createSchema_document_witness :
  ∃ schema,
    createSchema sampleProgram sampleParser sampleFormatter (Some "A") = Ok schema ∧
    schema !! "$schema" = Some (JStr draft07) ∧
    schema !! "$ref" = Some (JStr "#/definitions/A") ∧
    schema !! "definitions" = Some (JObj {[ "A" := JObj definitionOfA ]}).
Proof.
  destruct (createSchema_document sampleProgram sampleParser sampleFormatter (Some "A")
              [interfaceA]
              storeOfA eq_refl eq_refl)
    as (schema & Hrun & Hdefs & Hfields & Hstamp & _).
  exists schema. split; [exact Hrun|]. split; [|split].
  - apply Hstamp. reflexivity.
  - apply Hfields; [discriminate | reflexivity].
  - rewrite Hdefs. reflexivity.
Defined.

(** C3, as stated, fails when the root's definition has a [$schema] field:
    the spread writes it over the draft-07 address. *)
Lemma root_definition_overrides_schema :
  ¬ (∀ program nodeParser typeFormatter fullName schema,
       createSchema program nodeParser typeFormatter fullName = Ok schema →
       schema !! "$schema" = Some (JStr draft07)).
Proof.
  intros Hclaim.
  specialize (Hclaim sampleProgram sampleParser stampingFormatter (Some "A") _ eq_refl).
  vm_compute in Hclaim. discriminate Hclaim.
Qed.

(** A root file with a generic interface and a local alias only. *)
Lemma createSchema_no_roots_witness :
  createSchema quietProgram sampleParser sampleFormatter None =
    Ok (<["definitions" := JObj ∅]> {["$schema" := JStr draft07]}).
Proof.
  apply (createSchema_no_roots quietProgram sampleParser sampleFormatter None);
    reflexivity.
Defined.

(** * Further properties of the generator *)

(** ** Partition of the source files *)

Lemma append_cons c s t : String c s +:+ t = String c (s +:+ t).
Proof. done. Qed.

Lemma prefix_occurs sub s :
  String.prefix sub s = true ↔ ∃ post, s = sub +:+ post.
Proof.
  revert s. induction sub as [|c sub IH]; intros s.
  - split; [intros _; by exists s | by destruct s].
  - destruct s as [|c' s]; simpl; [split; [done | by intros [post [=]]]|].
    destruct (Ascii.ascii_dec c c') as [->|Hne].
    + rewrite IH. split; intros [post Hpost]; exists post;
        rewrite append_cons in *; congruence.
    + split; [done | intros [post Heq]; rewrite append_cons in Heq; congruence].
Qed.

Lemma includes_occursIn sub s : includes sub s = true ↔ occursIn sub s.
Proof.
  unfold occursIn. induction s as [|c s IH].
  - change (includes sub "") with (String.prefix sub "" || false).
    rewrite orb_false_r, prefix_occurs. split.
    + intros [post ->]. by exists "", post.
    + intros ([|c pre] & post & Heq); [by exists post|].
      rewrite append_cons in Heq. discriminate Heq.
  - change (includes sub (String c s))
      with (String.prefix sub (String c s) || includes sub s).
    rewrite orb_true_iff, prefix_occurs, IH. split.
    + intros [[post ->]|(pre & post & ->)]; [by exists "", post|].
      by exists (String c pre), post.
    + intros ([|c' pre] & post & Heq); [left; by exists post|].
      right. rewrite append_cons in Heq. injection Heq as -> ->. by exists pre, post.
Qed.

Lemma partitionFiles_foldl files (arrays : list SourceFileT * list SourceFileT) :
  foldl (fun arrays sourceFile =>
           if includes "/node_modules/" (fileName sourceFile)
           then (arrays.1, arrays.2 ++ [sourceFile])
           else (arrays.1 ++ [sourceFile], arrays.2))
        arrays files =
  (arrays.1 ++ filter (fun sf => isExternal sf = false) files,
   arrays.2 ++ filter (fun sf => isExternal sf = true) files).
Proof.
  revert arrays. induction files as [|sf files IH]; intros [ps es].
  - simpl. by rewrite !app_nil_r.
  - cbn [foldl]. change (includes "/node_modules/" (fileName sf)) with (isExternal sf).
    rewrite !filter_cons.
    destruct (isExternal sf) eqn:E; rewrite IH; simpl; by rewrite <- app_assoc.
Qed.

(** X1.  [partitionFiles] loses no source file and repeats none: its two
    arrays are the project files and the external files, each in the order
    of the program, together a rearrangement of the program's source files;
    a file is external exactly when [/node_modules/] occurs in its name. *)
Theorem partitionFiles_partition program :
  partitionFiles program = (projectFiles program, externalFiles program) ∧
  projectFiles program ++ externalFiles program ≡ₚ getSourceFiles program ∧
  sublist (projectFiles program) (getSourceFiles program) ∧
  sublist (externalFiles program) (getSourceFiles program) ∧
  (∀ sf, sf ∈ externalFiles program ↔
         sf ∈ getSourceFiles program ∧ occursIn "/node_modules/" (fileName sf)) ∧
  (∀ sf, sf ∈ projectFiles program ↔
         sf ∈ getSourceFiles program ∧ ¬ occursIn "/node_modules/" (fileName sf)).
Proof.
  unfold partitionFiles, projectFiles, externalFiles.
  split; [by rewrite partitionFiles_foldl|].
  split; [|split; [apply sublist_filter|split; [apply sublist_filter|]]].
  - induction (getSourceFiles program) as [|sf files IH]; [done|].
    rewrite !filter_cons. destruct (isExternal sf); simpl.
    + rewrite <- Permutation_middle. by constructor.
    + by constructor.
  - split; intros sf; rewrite list_elem_of_filter; unfold isExternal;
      rewrite <- includes_occursIn.
    + tauto.
    + destruct (includes _ _); split; intros [? ?]; split; done || congruence.
Qed.

(** ** The declaration index, entry by entry *)

Lemma elem_of_concat_map {A B} (f : A → list B) (l : list A) (x : B) :
  x ∈ concat (map f l) ↔ ∃ y, y ∈ l ∧ x ∈ f y.
Proof.
  induction l as [|a l IH]; simpl.
  - split; [by intros ?%elem_of_nil | by intros (y & ?%elem_of_nil & _)].
  - rewrite elem_of_app, IH. split.
    + intros [?|(y & ? & ?)]; [exists a | exists y]; split; try done;
        apply elem_of_cons; by auto.
    + intros (y & [->|?]%elem_of_cons & ?); [by left | right; by exists y].
Qed.

Lemma declarationNodes_kind root node :
  node ∈ declarationNodes root → isDeclarationKind (kind node) = true.
Proof.
  induction root as [k p s ls tps subnodes IH] using Node_tree_ind. simpl.
  destruct (isDeclarationKind k) eqn:Hk.
  - by intros ->%list_elem_of_singleton.
  - intros (child & Hchild & Hin)%elem_of_concat_map.
    rewrite Forall_forall in IH. by apply (IH child).
Qed.

Lemma discovered_elem sourceFiles node :
  node ∈ discovered sourceFiles ↔
  eligible node = true ∧
  ∃ sf, sf ∈ sourceFiles ∧ node ∈ declarationNodes (sourceFileNode sf).
Proof.
  unfold discovered. rewrite list_elem_of_filter, elem_of_concat_map. done.
Qed.

Lemma discovered_checks sourceFiles node :
  node ∈ discovered sourceFiles →
  isDeclarationKind (kind node) = true ∧
  isExportType node = true ∧ isGenericType node = false.
Proof.
  intros [Hel (sf & _ & Hin)]%discovered_elem.
  split; [by eapply declarationNodes_kind|].
  unfold eligible in Hel. apply andb_true_iff in Hel as [? ?%negb_true_iff]. done.
Qed.

Lemma discovered_mono (P : SourceFileT → Prop) `{∀ sf, Decision (P sf)}
    sourceFiles node :
  node ∈ discovered (filter P sourceFiles) → node ∈ discovered sourceFiles.
Proof.
  rewrite !discovered_elem. intros [? (sf & [_ ?]%list_elem_of_filter & ?)].
  split; [done|]. by exists sf.
Qed.

Lemma entriesOf_elem typeChecker nodes es name node :
  entriesOf typeChecker nodes = Ok es →
  (name, node) ∈ es ↔ node ∈ nodes ∧ getFullName node typeChecker = Ok name.
Proof.
  revert es. induction nodes as [|n ns IH]; intros es; simpl.
  - intros [= <-]. split; [by intros ?%elem_of_nil | by intros [?%elem_of_nil _]].
  - destruct (getFullName n typeChecker) as [k|] eqn:Hk; simpl; [|done].
    destruct (entriesOf typeChecker ns) as [es'|]; simpl; [|done].
    intros [= <-]. rewrite !elem_of_cons, (IH es' eq_refl). split.
    + intros [[= -> ->]|[? ?]]; [by auto | by auto].
    + intros [[->|?] Hname]; [left; congruence | by auto].
Qed.

Lemma map_get_Some_in {A} (m : JsMap A) k v : map_get k m = Some v → (k, v) ∈ m.
Proof.
  induction m as [|[k' v'] m IH]; simpl; [done|].
  destruct (String.eqb k' k) eqn:E.
  - apply String.eqb_eq in E. intros [= ->]. subst. by left.
  - intros ?. right. by apply IH.
Qed.

Lemma lastEntry_in {A} (es : list (string * A)) k v :
  lastEntry k es = Some v → (k, v) ∈ es.
Proof. intros ?%map_get_Some_in. by apply elem_of_reverse. Qed.

Lemma map_get_is_Some {A} (m : JsMap A) k : is_Some (map_get k m) ↔ k ∈ map_keys m.
Proof.
  unfold map_keys. induction m as [|[k' v'] m IH]; csimpl.
  - split; [by intros [? ?] | by intros ?%elem_of_nil].
  - rewrite elem_of_cons. destruct (String.eqb k' k) eqn:E.
    + apply String.eqb_eq in E. split; [by auto | by eexists].
    + apply String.eqb_neq in E. rewrite IH. split; [by auto|].
      intros [?|?]; [congruence | done].
Qed.

Lemma lastEntry_is_Some {A} (es : list (string * A)) k :
  is_Some (lastEntry k es) ↔ k ∈ es.*1.
Proof.
  unfold lastEntry. rewrite map_get_is_Some. unfold map_keys.
  by rewrite fmap_reverse, elem_of_reverse.
Qed.

Lemma map_keys_setAll_NoDup {A} (es : list (string * A)) (m : JsMap A) :
  NoDup (map_keys m) → NoDup (map_keys (setAll es m)).
Proof.
  intros Hnd. rewrite map_keys_setAll. apply NoDup_app. split; [done|].
  destruct (firstOccurrences_NoDup (list_to_set (map_keys m)) es.*1) as [Hfresh Hel].
  split; [|done]. intros k Hk [_ Hnot]%Hel. apply Hnot. by apply elem_of_list_to_set.
Qed.

(** What a lookup finds after the index was built over some files on top of
    an older map. *)
Lemma appendTypes_lookup sourceFiles typeChecker types types' name node :
  appendTypes sourceFiles typeChecker types = Ok types' →
  map_get name types' = Some node →
  (node ∈ discovered sourceFiles ∧ getFullName node typeChecker = Ok name) ∨
  map_get name types = Some node.
Proof.
  intros (es & Hes & ->)%appendTypes_Ok. rewrite map_get_setAll.
  destruct (lastEntry name es) as [n|] eqn:Hlast; [|by right].
  intros [= <-]. left. apply lastEntry_in in Hlast.
  by apply (entriesOf_elem _ _ _ _ _ Hes) in Hlast.
Qed.

(** X2.  Every entry of an index built from scratch is sound: the node
    filed under a name is a declaration of one of the four kinds reached in
    the given files, exported, without type parameters, and the name is the
    node's own qualified name. *)
Theorem index_entries_sound sourceFiles typeChecker index name node :
  appendTypes sourceFiles typeChecker [] = Ok index →
  map_get name index = Some node →
  node ∈ discovered sourceFiles ∧
  getFullName node typeChecker = Ok name ∧
  isDeclarationKind (kind node) = true ∧
  isExportType node = true ∧ isGenericType node = false.
Proof.
  intros Hindex Hget.
  destruct (appendTypes_lookup _ _ _ _ _ _ Hindex Hget) as [[Hin Hname]|Hold];
    [|done].
  split; [done|]. split; [done|]. by eapply discovered_checks.
Qed.

(** X3.  An index built from scratch has one entry per name and misses no
    name: its keys are pairwise distinct, it is no longer than the list of
    eligible declarations reached, and the qualified name of every such
    declaration is a key, filed with a declaration of that very name. *)
Theorem index_complete sourceFiles typeChecker index :
  appendTypes sourceFiles typeChecker [] = Ok index →
  NoDup (map_keys index) ∧
(length index ≤ length (discovered sourceFiles))%nat ∧
  ∀ node, node ∈ discovered sourceFiles →
    ∃ name node',
      getFullName node typeChecker = Ok name ∧
      map_get name index = Some node' ∧
      getFullName node' typeChecker = Ok name.
Proof.
  intros (es & Hes & ->)%appendTypes_Ok. split; [|split].
  - apply map_keys_setAll_NoDup. constructor.
  - rewrite <- (entriesOf_values _ _ _ Hes), length_fmap.
    assert (∀ (es' : list (string * Node)) m,
              (length (setAll es' m) ≤ length m + length es')%nat) as Hlen.
    { clear. induction es' as [|[k v] es' IH]; intros m; [simpl; lia|].
      rewrite setAll_cons. etrans; [apply IH|]. simpl.
      assert (length (map_set k v m) ≤ S (length m))%nat; [|lia].
      clear. induction m as [|[k' v'] m IHm]; simpl; [lia|].
      destruct (String.eqb k' k); simpl; lia. }
    apply (Hlen es []).
  - intros node Hin.
    assert (∃ name, getFullName node typeChecker = Ok name ∧ (name, node) ∈ es)
      as (name & Hname & Hentry).
    { assert (Forall bound (discovered sourceFiles)) as Hbound.
      { apply (entriesOf_returns typeChecker). by exists es. }
      rewrite Forall_forall in Hbound. destruct (Hbound node Hin) as [sym Hsym].
      exists (replaceQuoted (getFullyQualifiedName typeChecker sym)).
      assert (getFullName node typeChecker =
              Ok (replaceQuoted (getFullyQualifiedName typeChecker sym))) as Hn.
      { unfold getFullName. by rewrite Hsym. }
      split; [done|]. by apply (entriesOf_elem _ _ _ _ _ Hes). }
    assert (is_Some (lastEntry name es)) as [node' Hlast].
    { apply lastEntry_is_Some, list_elem_of_fmap. by exists (name, node). }
    exists name, node'. split; [done|]. rewrite map_get_setAll, Hlast.
    split; [done|]. apply lastEntry_in in Hlast.
    by apply (entriesOf_elem _ _ _ _ _ Hes) in Hlast as [_ ?].
Qed.

(** X4.  Building the index on top of an older map removes nothing: the
    old keys stay, in their order and at the front, distinct keys stay
    distinct, and a name that no reached eligible declaration carries keeps
    the node it had, while the name of such a declaration is filed with a
    declaration reached in the new files. *)
Theorem appendTypes_extends sourceFiles typeChecker types types' :
  appendTypes sourceFiles typeChecker types = Ok types' →
  (∃ fresh, map_keys types' = map_keys types ++ fresh) ∧
  (NoDup (map_keys types) → NoDup (map_keys types')) ∧
  (∀ name,
     (∀ node, node ∈ discovered sourceFiles → getFullName node typeChecker ≠ Ok name) →
     map_get name types' = map_get name types) ∧
  (∀ node name,
     node ∈ discovered sourceFiles → getFullName node typeChecker = Ok name →
     ∃ node', map_get name types' = Some node' ∧ node' ∈ discovered sourceFiles).
Proof.
  intros (es & Hes & ->)%appendTypes_Ok. split; [|split; [|split]].
  - rewrite map_keys_setAll. by eexists.
  - apply map_keys_setAll_NoDup.
  - intros name Hnone. rewrite map_get_setAll.
    destruct (lastEntry name es) as [n|] eqn:Hlast; [|done].
    apply lastEntry_in, (entriesOf_elem _ _ _ _ _ Hes) in Hlast as [Hin Hname].
    by destruct (Hnone n Hin).
  - intros node name Hin Hname.
    assert (is_Some (lastEntry name es)) as [node' Hlast].
    { apply lastEntry_is_Some, list_elem_of_fmap. exists (name, node).
      split; [done|]. by apply (entriesOf_elem _ _ _ _ _ Hes). }
    exists node'. rewrite map_get_setAll, Hlast. split; [done|].
    by apply lastEntry_in, (entriesOf_elem _ _ _ _ _ Hes) in Hlast as [? _].
Qed.

(** ** Root selection *)

Lemma findNamedNode_Ok program fullName node :
  findNamedNode program fullName = Ok node →
  getFullName node (getTypeChecker program) = Ok fullName ∧
  node ∈ discovered (getSourceFiles program).
Proof.
  unfold findNamedNode.
  destruct (appendTypes (projectFiles program) _ []) as [P|] eqn:HP; simpl; [|done].
  destruct (map_get fullName P) as [n|] eqn:Hget.
  - intros [= <-].
    destruct (appendTypes_lookup _ _ _ _ _ _ HP Hget) as [[Hin Hname]|Hold]; [|done].
    split; [done|]. by eapply discovered_mono.
  - destruct (appendTypes (externalFiles program) _ P) as [E|] eqn:HE; simpl; [|done].
    destruct (map_get fullName E) as [n|] eqn:Hget'; [|done].
    intros [= <-].
    destruct (appendTypes_lookup _ _ _ _ _ _ HE Hget') as [[Hin Hname]|Hold];
      [|congruence].
    split; [done|]. by eapply discovered_mono.
Qed.

(** X5.  Whatever [findNamedNode] returns carries the requested name: the
    node is a declaration of one of the four kinds reached in a source file
    of the program, exported, without type parameters, and its own
    qualified name is the name that was asked for. *)
Theorem findNamedNode_sound program fullName node :
  findNamedNode program fullName = Ok node →
  getFullName node (getTypeChecker program) = Ok fullName ∧
  node ∈ discovered (getSourceFiles program) ∧
  isDeclarationKind (kind node) = true ∧
  isExportType node = true ∧ isGenericType node = false.
Proof.
  intros [Hname Hin]%findNamedNode_Ok.
  split; [done|]. split; [done|]. by eapply discovered_checks.
Qed.

(** X6.  Among several declarations of one name the last one decides: with
    the entries of the project files and of the external files at hand,
    [findNamedNode] returns the last project entry of the name, failing
    that the last external entry, and failing that throws
    [NoRootTypeError]. *)
Theorem findNamedNode_last_declaration program fullName projectEntries externalEntries :
  entriesOf (getTypeChecker program) (discovered (projectFiles program)) = Ok projectEntries →
  entriesOf (getTypeChecker program) (discovered (externalFiles program)) = Ok externalEntries →
  findNamedNode program fullName =
  match lastEntry fullName projectEntries with
  | Some node => Ok node
  | None =>
      match lastEntry fullName externalEntries with
      | Some node => Ok node
      | None => Throw (NoRootTypeError fullName)
      end
  end.
Proof.
  intros HP HE. unfold findNamedNode.
  rewrite !appendTypes_entries, HP. simpl. rewrite map_get_setAll. simpl.
  destruct (lastEntry fullName projectEntries) as [n|] eqn:Hlast; [done|].
  rewrite appendTypes_entries, HE. simpl. rewrite !map_get_setAll, Hlast. simpl.
  by destruct (lastEntry fullName externalEntries).
Qed.

(** X7.  A query by name yields exactly one root, the declaration of that
    name, wherever the program declares it: which files are designated as
    root files plays no part. *)
Theorem getRootNodes_by_name program name :
  name ≠ "" → name ≠ "*" →
  (∀ rootFileNames,
     getRootNodes (mkProgram (getSourceFiles program) rootFileNames
                             (getTypeChecker program)) (Some name) =
     getRootNodes program (Some name)) ∧
  (∀ roots, getRootNodes program (Some name) = Ok roots →
     ∃ node, roots = [node] ∧
             findNamedNode program name = Ok node ∧
             getFullName node (getTypeChecker program) = Ok name ∧
             node ∈ discovered (getSourceFiles program)) ∧
  (∀ e, getRootNodes program (Some name) = Throw e →
        findNamedNode program name = Throw e).
Proof.
  intros Hne Hstar.
  assert (specificName (Some name) = Some name) as Hq.
  { simpl. apply String.eqb_neq in Hne, Hstar. by rewrite Hne, Hstar. }
  unfold getRootNodes. rewrite Hq. split; [done|]. split.
  - intros roots. destruct (findNamedNode program name) as [node|] eqn:Hfind; [|done].
    intros [= <-]. exists node. split; [done|]. split; [done|].
    by apply findNamedNode_Ok.
  - intros e. destruct (findNamedNode program name); simpl; [done|].
    by intros [= <-].
Qed.

(** X8.  A wildcard, empty or absent query yields declarations reached in
    the root files only, under pairwise distinct qualified names; the three
    forms of the query give the same roots, files that are not root files
    change nothing, and the lookup error [NoRootTypeError] is never
    thrown. *)
Theorem getRootNodes_wildcard_distinct program fullName :
  specificName fullName = None →
  getRootNodes program fullName = getRootNodes program None ∧
  (∀ program',
     getTypeChecker program' = getTypeChecker program →
     rootSourceFiles program' = rootSourceFiles program →
     getRootNodes program' fullName = getRootNodes program fullName) ∧
  (∀ e, getRootNodes program fullName = Throw e → e = TypeError) ∧
  (∀ roots, getRootNodes program fullName = Ok roots →
     (∀ node, node ∈ roots → node ∈ discovered (rootSourceFiles program)) ∧
     ∃ names,
       Forall2 (λ node name, getFullName node (getTypeChecker program) = Ok name)
               roots names ∧
       NoDup names).
Proof.
  intros Hq. unfold getRootNodes. rewrite Hq. simpl.
  split; [done|]. split; [by intros program' -> ->|]. split.
  - intros e.
    destruct (appendTypes _ _ []) as [idx|e'] eqn:Hidx; simpl; [done|].
    intros [= <-]. by apply appendTypes_throws in Hidx as [? _].
  - intros roots.
    destruct (appendTypes _ _ []) as [idx|] eqn:Hidx; simpl; [|done].
    intros [= <-]. split.
    + intros node (e & -> & Hin)%list_elem_of_fmap. destruct e as [k n]. simpl.
      assert (map_get k idx = Some n) as Hget.
      { apply appendTypes_Ok in Hidx as (es & _ & ->).
        pose proof (map_get_entry (setAll es [])
                      (map_keys_setAll_NoDup es [] (NoDup_nil_2))) as Hall.
        rewrite Forall_forall in Hall. apply (Hall _ Hin). }
      by destruct (appendTypes_lookup _ _ _ _ _ _ Hidx Hget) as [[? _]|?].
    + exists (map_keys idx).
      apply appendTypes_Ok in Hidx as Hes. destruct Hes as (es & Hes & ->).
      split; [|apply map_keys_setAll_NoDup; constructor].
      pose proof (map_get_entry (setAll es [])
                    (map_keys_setAll_NoDup es [] (NoDup_nil_2))) as Hall.
      unfold map_values, map_keys. apply Forall2_fmap, Forall_Forall2_diag.
      eapply Forall_impl; [exact Hall|]. intros [k n] Hget. simpl in *.
      by destruct (appendTypes_lookup _ _ _ _ _ _ Hidx Hget) as [[_ ?]|?].
Qed.

(** ** The children of a root *)

Lemma filterSeen_elem (seen : gset string) children child :
  child ∈ filterSeen seen children ↔
  ∃ before after,
    children = before ++ child :: after ∧
    (getId child ∉ seen) ∧ (getId child ∉ getId <$> before).
Proof.
  revert seen. induction children as [|c cs IH]; intros seen; simpl.
  - split; [by intros ?%elem_of_nil|]. intros (before & after & Heq & _).
    by destruct before.
  - case_bool_decide as Hseen.
    + rewrite IH. split.
      * intros (before & after & -> & Hnot & Hbefore).
        exists (c :: before), after. split; [done|]. split; [done|].
        csimpl. rewrite not_elem_of_cons. split; [congruence | done].
      * intros ([|c' before] & after & Heq & Hnot & Hbefore);
          injection Heq as <- ->; [done|].
        exists before, after. split; [done|]. split; [done|].
        csimpl in Hbefore. by apply not_elem_of_cons in Hbefore as [_ ?].
    + rewrite elem_of_cons, IH. split.
      * intros [->|(before & after & -> & Hnot & Hbefore)].
        -- exists [], cs. split; [done|]. split; [done | apply not_elem_of_nil].
        -- exists (c :: before), after. split; [done|].
           rewrite not_elem_of_union, elem_of_singleton in Hnot.
           destruct Hnot as [Hne Hnot]. split; [done|].
           csimpl. rewrite not_elem_of_cons. done.
      * intros ([|c' before] & after & Heq & Hnot & Hbefore);
          injection Heq as <- ->; [by left|].
        right. exists before, after. split; [done|].
        csimpl in Hbefore. apply not_elem_of_cons in Hbefore as [Hne Hbefore].
        split; [|done]. rewrite not_elem_of_union, elem_of_singleton. done.
Qed.

Lemma filterSeen_sublist seen children : sublist (filterSeen seen children) children.
Proof.
  revert seen. induction children as [|c cs IH]; intros seen; simpl; [done|].
  case_bool_decide; [by apply sublist_cons | by apply sublist_skip].
Qed.

Lemma filterSeen_noop seen children :
  NoDup (getId <$> children) → (∀ c, c ∈ children → getId c ∉ seen) →
  filterSeen seen children = children.
Proof.
  revert seen. induction children as [|c cs IH]; intros seen Hnd Hseen; [done|].
  csimpl in Hnd. apply NoDup_cons in Hnd as [Hc Hnd]. simpl.
  rewrite bool_decide_eq_false_2 by (apply Hseen; by left).
  f_equal. apply IH; [done|]. intros c' Hin.
  rewrite not_elem_of_union, elem_of_singleton. split.
  - intros Heq. apply Hc. rewrite <- Heq. by apply list_elem_of_fmap_2.
  - apply Hseen. by right.
Qed.

(** X9.  The filter on ids keeps, of the definition types the formatter
    reports, exactly the first one of every id, in the order reported: the
    ids kept are pairwise distinct, every reported id is kept once, a child
    whose id was met before is dropped whatever its name, and filtering
    again changes nothing. *)
Theorem definitionChildren_dedup typeFormatter rootType :
  NoDup (getId <$> definitionChildren typeFormatter rootType) ∧
  sublist (definitionChildren typeFormatter rootType)
          (reportedChildren typeFormatter rootType) ∧
  (∀ child, child ∈ definitionChildren typeFormatter rootType ↔
     ∃ before after,
       reportedChildren typeFormatter rootType = before ++ child :: after ∧
       getId child ∉ getId <$> before) ∧
  (∀ child, child ∈ reportedChildren typeFormatter rootType →
     ∃ kept, kept ∈ definitionChildren typeFormatter rootType ∧
             getId kept = getId child) ∧
  filterSeen ∅ (definitionChildren typeFormatter rootType) =
    definitionChildren typeFormatter rootType.
Proof.
  unfold definitionChildren, reportedChildren.
  set (reported := omap asDefinitionType (getChildren typeFormatter rootType)).
  split; [apply filterSeen_NoDup|]. split; [apply filterSeen_sublist|].
  split; [|split].
  - intros child. rewrite filterSeen_elem. split.
    + intros (before & after & ? & _ & ?). by exists before, after.
    + intros (before & after & ? & ?). exists before, after.
      split; [done|]. split; [apply not_elem_of_empty | done].
  - intros child Hin.
    assert (∀ l, child ∈ l →
              ∃ before kept after,
                l = before ++ kept :: after ∧ getId kept = getId child ∧
                getId kept ∉ getId <$> before) as Hfirst.
    { clear. induction l as [|c l IH]; [by intros ?%elem_of_nil|].
      intros Hin. destruct (decide (getId c = getId child)) as [Heq|Hne].
      - exists [], c, l. split; [done|]. split; [done | apply not_elem_of_nil].
      - apply elem_of_cons in Hin as [->|Hin]; [done|].
        destruct (IH Hin) as (before & kept & after & -> & Hid & Hnot).
        exists (c :: before), kept, after. split; [done|]. split; [done|].
        csimpl. rewrite not_elem_of_cons. split; [congruence | done]. }
    destruct (Hfirst reported Hin) as (before & kept & after & Heq & Hid & Hnot).
    exists kept. split; [|done]. apply filterSeen_elem.
    exists before, after. split; [done|]. split; [apply not_elem_of_empty | done].
  - apply filterSeen_noop; [apply filterSeen_NoDup|].
    intros c _. apply not_elem_of_empty.
Qed.

(** ** The collision check *)

Lemma NoDup_fmap_eq {A B} (f : A → B) (l : list A) x y :
  NoDup (f <$> l) → x ∈ l → y ∈ l → f x = f y → x = y.
Proof.
  intros Hnd [i Hi]%list_elem_of_lookup [j Hj]%list_elem_of_lookup Heq.
  assert (i = j) as ->; [|congruence].
  eapply NoDup_lookup; [exact Hnd|..]; rewrite list_lookup_fmap.
  - by rewrite Hi.
  - by rewrite Hj, Heq.
Qed.

(** The check raises no false alarm, whatever the ids are. *)
Lemma checkNames_Throw children :
  ∀ (ids : gmap string string) e,
    checkNames ids children = Throw e →
    ∃ name, e = Error (collisionMessage name) ∧
      ((∃ c id, c ∈ children ∧ getName c = name ∧
                ids !! name = Some id ∧ getId c ≠ id) ∨
       collidingName children name).
Proof.
  induction children as [|c cs IH]; intros ids e; simpl; [done|].
  destruct (match ids !! getName c with
            | Some previousId =>
                negb (String.eqb previousId "") &&
                negb (String.eqb (getId c) previousId)
            | None => false
            end) eqn:Hcollides.
  - intros [= <-]. exists (getName c). split; [done|]. left.
    destruct (ids !! getName c) as [prev|] eqn:Hprev; [|done].
    apply andb_true_iff in Hcollides as [_ Hdiff%negb_true_iff%String.eqb_neq].
    exists c, prev. split; [by left | done].
  - intros (name & -> & Hcause)%IH. exists name. split; [done|].
    destruct Hcause as [(c' & id & Hin & Hname & Hid & Hdiff)|Hcol];
      [|right; by apply collidingName_cons].
    rewrite lookup_insert in Hid. case_decide as Heq.
    + injection Hid as <-. right. exists c', c.
      split; [by right|]. split; [by left | done].
    + left. exists c', id. split; [by right | done].
Qed.

Lemma checkNames_NoDup children :
  NoDup (getName <$> children) → checkNames ∅ children = Ok tt.
Proof.
  intros Hnd. destruct (checkNames ∅ children) as [[]|e] eqn:Hcheck; [done|].
  apply checkNames_Throw in Hcheck
    as (name & _ & [(c & id & _ & _ & Hid & _)|(c1 & c2 & H1 & H2 & Hn1 & Hn2 & Hdiff)]).
  - by rewrite lookup_empty in Hid.
  - destruct Hdiff. f_equal. eapply (NoDup_fmap_eq getName); [done..|congruence].
Qed.

(** X10.  An invocation of the collector goes through whenever the
    deduplicated children of the root carry pairwise distinct names; when
    none of their ids is the empty string, that is the only way: it returns
    exactly when the names are pairwise distinct. *)
Theorem appendRootChildDefinitions_returns_iff typeFormatter rootType store :
  (NoDup (getName <$> definitionChildren typeFormatter rootType) →
   (appendRootChildDefinitions typeFormatter rootType store).1 = Ok tt) ∧
  (Forall (λ c, getId c ≠ "") (definitionChildren typeFormatter rootType) →
   (appendRootChildDefinitions typeFormatter rootType store).1 = Ok tt →
   NoDup (getName <$> definitionChildren typeFormatter rootType)).
Proof.
  unfold appendRootChildDefinitions. split.
  - intros Hnd. by rewrite checkNames_NoDup.
  - intros Hne Hok.
    pose proof (checkNames_spec (definitionChildren typeFormatter rootType) ∅) as Hspec.
    destruct (checkNames ∅ _) as [[]|e]; [|done].
    destruct Hspec as [_ Hagree]; [|done|].
    { intros ? ?. by rewrite lookup_empty. }
    apply NoDup_alt. intros i j name.
    rewrite !list_lookup_fmap.
    destruct (definitionChildren typeFormatter rootType !! i) as [c1|] eqn:H1; [|done].
    destruct (definitionChildren typeFormatter rootType !! j) as [c2|] eqn:H2; [|done].
    simpl. intros [= Hn1] [= Hn2].
    eapply NoDup_lookup; [apply (definitionChildren_ids typeFormatter rootType)|..];
      rewrite list_lookup_fmap.
    + by rewrite H1.
    + rewrite H2. simpl. f_equal. symmetry.
      apply Hagree; [by eapply list_elem_of_lookup_2..|congruence].
Qed.

(** ** What the collector writes *)

Lemma firstNamed_cons name child children :
  firstNamed name (child :: children) =
  if decide (getName child = name) then Some child else firstNamed name children.
Proof.
  unfold firstNamed. simpl. case_decide; [done|].
  by destruct (list_find _ children) as [[i c]|].
Qed.

Lemma firstNamed_Some name children child :
  firstNamed name children = Some child →
  child ∈ children ∧ getName child = name.
Proof.
  induction children as [|c cs IH]; [done|].
  rewrite firstNamed_cons. case_decide.
  - intros [= <-]. split; [by left | done].
  - intros [? ?]%IH. split; [by right | done].
Qed.

Lemma firstNamed_None name children :
  firstNamed name children = None ↔ ∀ child, child ∈ children → getName child ≠ name.
Proof.
  induction children as [|c cs IH].
  - split; [by intros _ ? ?%elem_of_nil | done].
  - rewrite firstNamed_cons. case_decide as Hname.
    + split; [done|]. intros Hall. destruct (Hall c); [by left | done].
    + rewrite IH. split.
      * intros Hall child [->|?]%elem_of_cons; [done | by apply Hall].
      * intros Hall child ?. apply Hall. by right.
Qed.

(** The mapping after the [reduce], key by key. *)
Lemma foldl_materialize_lookup typeFormatter children name :
  ∀ store,
    definitions (foldl (materialize typeFormatter) store children) !! name =
    match definitions store !! name with
    | Some d => Some d
    | None =>
        if bool_decide (name ∈ objectPrototypeKeys) then None
        else (λ c, getDefinition typeFormatter (getType c)) <$> firstNamed name children
    end.
Proof.
  induction children as [|c cs IH]; intros store.
  - simpl. destruct (definitions store !! name); [done|]. by case_bool_decide.
  - cbn [foldl]. rewrite IH, firstNamed_cons. unfold materialize.
    destruct (js_in (getName c) (definitions store)) eqn:Hin.
    + destruct (definitions store !! name) as [d|] eqn:Hd; [done|].
      case_bool_decide as Hproto; [done|].
      destruct (decide (getName c = name)) as [Hname|Hname]; [|done].
      subst name. unfold js_in in Hin. apply orb_true_iff in Hin as [Hown|Hp].
      * apply bool_decide_eq_true in Hown as [? ?]. congruence.
      * by apply bool_decide_eq_true in Hp.
    + apply js_in_false in Hin as [Hnone Hnot]. simpl.
      rewrite lookup_insert. destruct (decide (getName c = name)) as [Hname|Hname].
      * subst name. rewrite Hnone. by rewrite bool_decide_eq_false_2.
      * done.
Qed.

(** X11.  After an invocation that returns, the mapping is known key by
    key: a key present before keeps its definition; a name inherited from
    [Object.prototype] is never added; any other name gets the definition of
    the first deduplicated child that carries it, and stays absent when no
    child does. *)
Theorem appendRootChildDefinitions_lookup typeFormatter rootType store store' name :
  appendRootChildDefinitions typeFormatter rootType store = (Ok tt, store') →
  definitions store' !! name =
  match definitions store !! name with
  | Some d => Some d
  | None =>
      if bool_decide (name ∈ objectPrototypeKeys) then None
      else (λ c, getDefinition typeFormatter (getType c)) <$>
             firstNamed name (definitionChildren typeFormatter rootType)
  end.
Proof.
  unfold appendRootChildDefinitions. destruct (checkNames _ _); [|done].
  intros [= <-]. apply foldl_materialize_lookup.
Qed.

Lemma materialize_noop typeFormatter children store :
  (∀ c, c ∈ children → js_in (getName c) (definitions store) = true) →
  foldl (materialize typeFormatter) store children = store.
Proof.
  induction children as [|c cs IH]; intros Hall; [done|].
  cbn [foldl]. unfold materialize at 2. rewrite Hall by (by left).
  apply IH. intros c' ?. apply Hall. by right.
Qed.

Lemma foldl_materialize_present typeFormatter children store child :
  child ∈ children →
  js_in (getName child) (definitions (foldl (materialize typeFormatter) store children))
    = true.
Proof.
  intros Hin. unfold js_in. apply orb_true_iff.
  destruct (decide (getName child ∈ objectPrototypeKeys)) as [Hp|Hp];
    [right; by apply bool_decide_eq_true|].
  left. apply bool_decide_eq_true.
  rewrite foldl_materialize_lookup.
  destruct (definitions store !! getName child); [by eexists|].
  rewrite bool_decide_eq_false_2 by done.
  destruct (firstNamed (getName child) children) as [c|] eqn:Hfirst; [by eexists|].
  rewrite firstNamed_None in Hfirst. by destruct (Hfirst child Hin).
Qed.

(** X12.  The collector is idempotent: a second invocation on the same
    root ends like the first and leaves the store, mapping and formatter
    calls alike, exactly as the first left it. *)
Theorem appendRootChildDefinitions_idempotent typeFormatter rootType store :
  appendRootChildDefinitions typeFormatter rootType
    (appendRootChildDefinitions typeFormatter rootType store).2 =
  appendRootChildDefinitions typeFormatter rootType store.
Proof.
  unfold appendRootChildDefinitions.
  destruct (checkNames ∅ _) as [[]|e]; simpl; [|done].
  f_equal. apply materialize_noop. intros c Hin.
  by apply foldl_materialize_present.
Qed.

Lemma forEachRootType_Ok typeFormatter rootTypes store :
  (forEachRootType typeFormatter rootTypes store).1 = Ok tt ↔
  Forall (λ rootType,
            checkNames ∅ (definitionChildren typeFormatter rootType) = Ok tt)
         rootTypes.
Proof.
  revert store. induction rootTypes as [|t ts IH]; intros store; simpl.
  - split; [constructor | done].
  - rewrite Forall_cons. unfold appendRootChildDefinitions at 1.
    destruct (checkNames ∅ _) as [[]|e]; simpl.
    + rewrite IH. tauto.
    + split; [done | by intros [? _]].
Qed.

Lemma forEachRootType_Throw typeFormatter rootTypes store e :
  (forEachRootType typeFormatter rootTypes store).1 = Throw e →
  ∃ rootType, rootType ∈ rootTypes ∧
    checkNames ∅ (definitionChildren typeFormatter rootType) = Throw e.
Proof.
  revert store. induction rootTypes as [|t ts IH]; intros store; simpl; [done|].
  unfold appendRootChildDefinitions at 1.
  destruct (checkNames ∅ (definitionChildren typeFormatter t)) as [[]|e'] eqn:Hcheck;
    simpl.
  - intros (r & ? & ?)%IH. exists r. split; [by right | done].
  - intros [= <-]. exists t. split; [by left | done].
Qed.

(** The keys of the mapping after a run over several roots. *)
Lemma forEachRootType_keys typeFormatter rootTypes :
  ∀ store store',
    forEachRootType typeFormatter rootTypes store = (Ok tt, store') →
    ∀ name,
      is_Some (definitions store' !! name) ↔
      is_Some (definitions store !! name) ∨
      ((name ∉ objectPrototypeKeys) ∧
       ∃ rootType child,
         rootType ∈ rootTypes ∧
         child ∈ definitionChildren typeFormatter rootType ∧
         getName child = name).
Proof.
  induction rootTypes as [|t ts IH]; intros store store'; simpl.
  - intros [= <-] name. split; [by left|].
    intros [?|(_ & r & _ & ?%elem_of_nil & _)]; done.
  - unfold appendRootChildDefinitions at 1.
    destruct (checkNames ∅ (definitionChildren typeFormatter t)) as [[]|e]; [|done].
    intros Hrest name. rewrite (IH _ _ Hrest name), foldl_materialize_lookup.
    split.
    + intros [Hsome|(Hp & r & c & Hr & Hc & Hname)].
      * destruct (definitions store !! name) as [d|]; [left; by eexists|].
        case_bool_decide as Hp; [by destruct Hsome|].
        destruct (firstNamed name _) as [c|] eqn:Hfirst; [|by destruct Hsome].
        apply firstNamed_Some in Hfirst as [Hc Hname].
        right. split; [done|]. exists t, c. split; [by left | done].
      * right. split; [done|]. exists r, c. split; [by right | done].
    + intros [Hsome|(Hp & r & c & [->|Hr]%elem_of_cons & Hc & Hname)].
      * left. destruct (definitions store !! name); [by eexists | by destruct Hsome].
      * left. destruct (definitions store !! name); [by eexists|].
        rewrite bool_decide_eq_false_2 by done.
        destruct (firstNamed name _) as [c'|] eqn:Hfirst; [by eexists|].
        rewrite firstNamed_None in Hfirst. by destruct (Hfirst c Hc).
      * right. split; [done|]. by exists r, c.
Qed.

(** X13.  The order of the roots decides neither whether the run over them
    goes through nor which names end up as keys: a run over a rearrangement
    of roots that go through goes through as well, and yields a mapping
    with the same keys. *)
Theorem forEachRootType_permutation typeFormatter rootTypes rootTypes' store store1 :
  rootTypes ≡ₚ rootTypes' →
  forEachRootType typeFormatter rootTypes store = (Ok tt, store1) →
  ∃ store2,
    forEachRootType typeFormatter rootTypes' store = (Ok tt, store2) ∧
    dom (definitions store2) = dom (definitions store1).
Proof.
  intros Hperm Hrun.
  assert ((forEachRootType typeFormatter rootTypes' store).1 = Ok tt) as Hok.
  { apply forEachRootType_Ok. rewrite <- Hperm.
    apply (forEachRootType_Ok typeFormatter rootTypes store). by rewrite Hrun. }
  destruct (forEachRootType typeFormatter rootTypes' store) as [r store2] eqn:Hrun'.
  simpl in Hok. subst r. exists store2. split; [done|].
  apply set_eq. intros name. rewrite !elem_of_dom.
  rewrite (forEachRootType_keys _ _ _ _ Hrun), (forEachRootType_keys _ _ _ _ Hrun').
  split; (intros [?|(Hp & r & c & Hr & ?)]; [by left|]; right; split; [done|];
          exists r, c; split; [|done]).
  - by rewrite Hperm.
  - by rewrite <- Hperm.
Qed.

(** ** The document as a whole *)

(** Every definition of the mapping was there before the run or is the
    formatter's answer for a child of its name. *)
Lemma forEachRootType_values typeFormatter rootTypes :
  ∀ store store',
    forEachRootType typeFormatter rootTypes store = (Ok tt, store') →
    ∀ name d,
      definitions store' !! name = Some d →
      definitions store !! name = Some d ∨
      ∃ rootType child,
        rootType ∈ rootTypes ∧
        child ∈ definitionChildren typeFormatter rootType ∧
        getName child = name ∧
        d = getDefinition typeFormatter (getType child).
Proof.
  induction rootTypes as [|t ts IH]; intros store store'; simpl.
  - intros [= <-] name d ?. by left.
  - unfold appendRootChildDefinitions at 1.
    destruct (checkNames ∅ (definitionChildren typeFormatter t)) as [[]|e]; [|done].
    intros Hrest name d Hd.
    destruct (IH _ _ Hrest name d Hd) as [Hmid|(r & c & Hr & Hc & Hname & ->)].
    + rewrite foldl_materialize_lookup in Hmid.
      destruct (definitions store !! name) as [d'|]; [by left|].
      case_bool_decide; [done|].
      destruct (firstNamed name _) as [c|] eqn:Hfirst; [|done].
      apply firstNamed_Some in Hfirst as [Hc Hname]. injection Hmid as <-.
      right. exists t, c. split; [by left | done].
    + right. exists r, c. split; [by right | done].
Qed.

(** X14.  The [definitions] table of a document lists the names of the
    deduplicated children of the roots, and nothing else: a name is a key
    exactly when a child of some root carries it and it is not a name
    inherited from [Object.prototype]; the definition filed under it is
    the one the formatter gives for a child of that name. *)
Theorem createSchema_definitions program nodeParser typeFormatter fullName schema :
  createSchema program nodeParser typeFormatter fullName = Ok schema →
  ∃ roots defs,
    getRootNodes program fullName = Ok roots ∧
    schema !! "definitions" = Some (JObj (JObj <$> defs)) ∧
    (∀ name,
       is_Some (defs !! name) ↔
       (name ∉ objectPrototypeKeys) ∧
       ∃ rootNode child,
         rootNode ∈ roots ∧
         child ∈ definitionChildren typeFormatter (createType nodeParser rootNode) ∧
         getName child = name) ∧
    (∀ name d, defs !! name = Some d →
       ∃ rootNode child,
         rootNode ∈ roots ∧
         child ∈ definitionChildren typeFormatter (createType nodeParser rootNode) ∧
         getName child = name ∧
         d = getDefinition typeFormatter (getType child)).
Proof.
  unfold createSchema.
  destruct (getRootNodes program fullName) as [roots|] eqn:Hroots; simpl; [|done].
  destruct (forEachRootType typeFormatter (map (createType nodeParser) roots) emptyStore)
    as [[[]|e] store] eqn:Hrun; [|done].
  intros [= <-]. exists roots, (definitions store).
  split; [done|]. split; [apply schemaDocument_definitions|]. split.
  - intros name. rewrite (forEachRootType_keys _ _ _ _ Hrun name). simpl.
    rewrite lookup_empty. split.
    + intros [[? ?]|(Hp & t & c & Ht & Hc & Hname)]; [done|]. split; [done|].
      apply list_elem_of_fmap in Ht as (rootNode & -> & Hroot). by exists rootNode, c.
    + intros (Hp & rootNode & c & Hroot & Hc & Hname). right. split; [done|].
      exists (createType nodeParser rootNode), c. split; [|done].
      by apply list_elem_of_fmap_2.
  - intros name d Hd.
    destruct (forEachRootType_values _ _ _ _ Hrun name d Hd)
      as [Hold|(t & c & Ht & Hc & Hname & ->)].
    + simpl in Hold. by rewrite lookup_empty in Hold.
    + apply list_elem_of_fmap in Ht as (rootNode & -> & Hroot). by exists rootNode, c.
Qed.

Lemma findNamedNode_Throw program fullName e :
  findNamedNode program fullName = Throw e →
  (e = TypeError ∧
   ∃ node, node ∈ discovered (getSourceFiles program) ∧ symbolAtNode node = None) ∨
  (e = NoRootTypeError fullName ∧
   ∀ node, node ∈ discovered (getSourceFiles program) →
           getFullName node (getTypeChecker program) ≠ Ok fullName).
Proof.
  unfold findNamedNode.
  destruct (appendTypes (projectFiles program) _ []) as [P|eP] eqn:HP; simpl.
  2:{ intros [= <-]. left. apply appendTypes_throws in HP as [-> (n & Hin & Hn)].
      split; [done|]. exists n. split; [by eapply discovered_mono | done]. }
  destruct (map_get fullName P) as [n|] eqn:Hget; [done|].
  destruct (appendTypes (externalFiles program) _ P) as [E|eE] eqn:HE; simpl.
  2:{ intros [= <-]. left. apply appendTypes_throws in HE as [-> (n & Hin & Hn)].
      split; [done|]. exists n. split; [by eapply discovered_mono | done]. }
  destruct (map_get fullName E) as [n|] eqn:Hget'; [done|].
  intros [= <-]. right. split; [done|].
  intros node [Hel (sf & Hsf & Hin)]%discovered_elem Hname.
  destruct (appendTypes_Ok _ _ _ _ HE) as (esE & HesE & ->).
  rewrite map_get_setAll, Hget in Hget'.
  destruct (appendTypes_Ok _ _ _ _ HP) as (esP & HesP & ->).
  rewrite map_get_setAll in Hget.
  destruct (isExternal sf) eqn:Hext.
  - assert (node ∈ discovered (externalFiles program)) as Hd.
    { apply discovered_elem. split; [done|]. exists sf. split; [|done].
      unfold externalFiles. by apply list_elem_of_filter. }
    assert (is_Some (lastEntry fullName esE)) as [? Hlast].
    { apply lastEntry_is_Some, list_elem_of_fmap. exists (fullName, node).
      split; [done|]. by apply (entriesOf_elem _ _ _ _ _ HesE). }
    by rewrite Hlast in Hget'.
  - assert (node ∈ discovered (projectFiles program)) as Hd.
    { apply discovered_elem. split; [done|]. exists sf. split; [|done].
      unfold projectFiles. by apply list_elem_of_filter. }
    assert (is_Some (lastEntry fullName esP)) as [? Hlast].
    { apply lastEntry_is_Some, list_elem_of_fmap. exists (fullName, node).
      split; [done|]. by apply (entriesOf_elem _ _ _ _ _ HesP). }
    by rewrite Hlast in Hget.
Qed.

(** X15.  [createSchema] throws three kinds of error and no other, each
    for its own reason: [TypeError] when an eligible declaration reached in
    the program has no symbol; [NoRootTypeError] only for a query by name,
    carrying that name, when no eligible declaration reached anywhere in
    the program has it as its qualified name; the collision error only with
    a name that two deduplicated children of one root share under different
    ids. *)
Theorem createSchema_errors program nodeParser typeFormatter fullName e :
  createSchema program nodeParser typeFormatter fullName = Throw e →
  (e = TypeError ∧
   ∃ node, node ∈ discovered (getSourceFiles program) ∧ symbolAtNode node = None) ∨
  (∃ name,
     e = NoRootTypeError name ∧ fullName = Some name ∧ name ≠ "" ∧ name ≠ "*" ∧
     ∀ node, node ∈ discovered (getSourceFiles program) →
             getFullName node (getTypeChecker program) ≠ Ok name) ∨
  (∃ name roots rootNode,
     e = Error (collisionMessage name) ∧
     getRootNodes program fullName = Ok roots ∧ rootNode ∈ roots ∧
     collidingName (definitionChildren typeFormatter (createType nodeParser rootNode))
                   name).
Proof.
  unfold createSchema.
  destruct (getRootNodes program fullName) as [roots|e'] eqn:Hroots; simpl.
  - destruct (forEachRootType typeFormatter (map (createType nodeParser) roots) emptyStore)
      as [[[]|e'] store] eqn:Hrun; [done|].
    intros [= <-]. right. right.
    assert ((forEachRootType typeFormatter (map (createType nodeParser) roots)
               emptyStore).1 = Throw e') as Hthrow by (by rewrite Hrun).
    apply forEachRootType_Throw in Hthrow as (t & Ht & Hcheck).
    apply list_elem_of_fmap in Ht as (rootNode & -> & Hroot).
    apply checkNames_Throw in Hcheck as (name & -> & [(c & id & _ & _ & Hid & _)|Hcol]).
    + by rewrite lookup_empty in Hid.
    + by exists name, roots, rootNode.
  - intros [= <-]. unfold getRootNodes in Hroots.
    destruct (specificName fullName) as [name|] eqn:Hq.
    + destruct (findNamedNode program name) as [n|e''] eqn:Hfind; [done|].
      simpl in Hroots. injection Hroots as <-.
      destruct (findNamedNode_Throw _ _ _ Hfind) as [[-> Hnode]|[-> Hnone]];
        [by left|].
      right. left. exists name. split; [done|].
      destruct fullName as [name'|]; [|done]. simpl in Hq.
      destruct (String.eqb name' "") eqn:E1; [done|].
      destruct (String.eqb name' "*") eqn:E2; [done|].
      injection Hq as ->. apply String.eqb_neq in E1, E2. done.
    + destruct (appendTypes _ _ []) as [idx|e''] eqn:Hidx; [done|].
      simpl in Hroots. injection Hroots as <-.
      apply appendTypes_throws in Hidx as [-> (n & Hin & Hn)].
      left. split; [done|]. exists n. split; [|done].
      unfold rootSourceFiles in Hin. by eapply discovered_mono.
Qed.

(** X16.  When the query resolves to a single root node, [createSchema]
    and [createSchemaFromNode] on that node agree, in the document they
    return and in the error they throw. *)
Theorem createSchema_single_root program nodeParser typeFormatter fullName node :
  getRootNodes program fullName = Ok [node] →
  createSchema program nodeParser typeFormatter fullName =
  createSchemaFromNode nodeParser typeFormatter node.
Proof.
  intros Hroots. unfold createSchema, createSchemaFromNode.
  rewrite Hroots. simpl.
  by destruct (appendRootChildDefinitions typeFormatter _ emptyStore) as [[[]|e] store].
Qed.

(** ** Quoted segments anywhere in a name *)

Lemma replaceQuoted_segment pre mid post :
  noQuote pre = true → noLineTerminator mid = true → noQuote post = true →
  replaceQuoted (pre +:+ String dquote (mid +:+ String dquote (String dot post)))
    = pre +:+ post.
Proof.
  intros Hpre Hmid Hpost. induction pre as [|c pre IH].
  - change ("" +:+ String dquote (mid +:+ String dquote (String dot post)))
      with (String dquote (mid +:+ String dquote (String dot post))).
    simpl. by rewrite matchTail_closing.
  - simpl in Hpre. apply andb_true_iff in Hpre as [Hc Hpre].
    apply negb_true_iff in Hc. rewrite !append_cons. simpl.
    by rewrite Hc, (IH Hpre).
Qed.

(** X17.  A quoted segment is cut out of a qualified name wherever it
    stands: for a name made of a part without double quote, a quoted part
    without line break, a dot, and a rest without double quote,
    [getFullName] returns the first part followed by the rest. *)
Theorem getFullName_segment node typeChecker sym pre mid post :
  symbolAtNode node = Some sym →
  getFullyQualifiedName typeChecker sym =
    pre +:+ String dquote (mid +:+ String dquote (String dot post)) →
  noQuote pre = true → noLineTerminator mid = true → noQuote post = true →
  getFullName node typeChecker = Ok (pre +:+ post).
Proof.
  intros Hsym Hfqn Hpre Hmid Hpost. unfold getFullName.
  by rewrite Hsym, Hfqn, replaceQuoted_segment.
Qed.

(** ** The collision check, exactly *)

Lemma collides_false (ids : gmap string string) child :
  match ids !! getName child with
  | Some previousId =>
      negb (String.eqb previousId "") && negb (String.eqb (getId child) previousId)
  | None => false
  end = false ↔
  ∀ prev, ids !! getName child = Some prev → prev = "" ∨ getId child = prev.
Proof.
  destruct (ids !! getName child) as [prev|]; [|by split].
  rewrite andb_false_iff, !negb_false_iff, !String.eqb_eq. split.
  - by intros ? ? [= <-].
  - intros H. by apply H.
Qed.

Lemma checkNames_Ok_iff children :
  ∀ ids : gmap string string,
    checkNames ids children = Ok tt ↔
    (∀ before c after,
       children = before ++ c :: after →
       (∀ x, x ∈ before → getName x ≠ getName c) →
       ∀ prev, ids !! getName c = Some prev → prev = "" ∨ getId c = prev) ∧
    (∀ c1 c2, successive children c1 c2 → getId c1 = "" ∨ getId c2 = getId c1).
Proof.
  induction children as [|c cs IH]; intros ids.
  - split; [intros _|done]. split.
    + intros before c after Heq. by destruct before.
    + intros c1 c2 (before & between & after & Heq & _). by destruct before.
  - cbn [checkNames].
    destruct (match ids !! getName c with
              | Some previousId =>
                  negb (String.eqb previousId "") &&
                  negb (String.eqb (getId c) previousId)
              | None => false
              end) eqn:Hcollides.
    + split; [done|]. intros [Hfirst _].
      assert (∀ prev, ids !! getName c = Some prev → prev = "" ∨ getId c = prev) as H.
      { apply (Hfirst [] c cs eq_refl). by intros x ?%elem_of_nil. }
      apply collides_false in H. congruence.
    + pose proof (proj1 (collides_false ids c) Hcollides) as Hfree.
      clear Hcollides. rename Hfree into Hcollides. rewrite IH. split.
      * intros [Hfirst' Hsucc']. split.
        -- intros [|c' before] x after Heq Hbefore prev Hprev;
             injection Heq as <- ->; [by apply Hcollides|].
           apply (Hfirst' before x after eq_refl).
           ++ intros y ?. apply Hbefore. by right.
           ++ rewrite lookup_insert_ne; [done|]. apply Hbefore. by left.
        -- intros c1 c2 ([|c' before] & between & after & Heq & Hname & Hbetween);
             injection Heq as <- ->.
           ++ destruct (Hfirst' between c2 after eq_refl) with (prev := getId c)
                as [?|?]; [| |by left|by right].
              ** intros x Hx. rewrite <- Hname. by apply Hbetween.
              ** rewrite <- Hname. apply lookup_insert_eq.
           ++ apply Hsucc'. by exists before, between, after.
      * intros [Hfirst Hsucc]. split.
        -- intros before x after -> Hbefore prev Hprev.
           destruct (decide (getName c = getName x)) as [Hname|Hname].
           ++ rewrite <- Hname, lookup_insert_eq in Hprev. injection Hprev as <-.
              apply Hsucc. exists [], before, after. split; [done|]. split; [done|].
              intros y Hy. rewrite Hname. by apply Hbefore.
           ++ rewrite lookup_insert_ne in Hprev by done.
              apply (Hfirst (c :: before) x after eq_refl); [|done].
              intros y [->|?]%elem_of_cons; [done | by apply Hbefore].
        -- intros c1 c2 (before & between & after & -> & Hname & Hbetween).
           apply Hsucc. by exists (c :: before), between, after.
Qed.

(** X18.  The collision check, exactly as it decides: an invocation of the
    collector returns if and only if, wherever two deduplicated children
    carry one name with no child of that name between them, the earlier of
    the two has the empty string as its id. *)
Theorem appendRootChildDefinitions_returns_exactly typeFormatter rootType store :
  (appendRootChildDefinitions typeFormatter rootType store).1 = Ok tt ↔
  ∀ c1 c2,
    successive (definitionChildren typeFormatter rootType) c1 c2 → getId c1 = "".
Proof.
  unfold appendRootChildDefinitions.
  assert (checkNames ∅ (definitionChildren typeFormatter rootType) = Ok tt ↔
          ∀ c1 c2, successive (definitionChildren typeFormatter rootType) c1 c2 →
                   getId c1 = "") as <-.
  { rewrite checkNames_Ok_iff. split.
    - intros [_ Hsucc] c1 c2 Hs. destruct (Hsucc c1 c2 Hs) as [?|Heq]; [done|].
      destruct Hs as (before & between & after & Hl & _).
      pose proof (definitionChildren_ids typeFormatter rootType) as Hnd.
      rewrite Hl, fmap_app in Hnd. apply NoDup_app in Hnd as (_ & _ & Hnd).
      csimpl in Hnd. apply NoDup_cons in Hnd as [Hnot _].
      destruct Hnot. rewrite fmap_app, elem_of_app. right. csimpl.
      rewrite Heq. by left.
    - intros Hsucc. split.
      + intros before c after _ _ prev. by rewrite lookup_empty.
      + intros c1 c2 Hs. left. by apply (Hsucc c1 c2). }
  destruct (checkNames ∅ _) as [[]|e]; simpl; split; done.
Qed.

(** X19.  [createSchema] returns a document whenever the roots resolve and
    the deduplicated children of every root carry pairwise distinct
    names. *)
Theorem createSchema_returns program nodeParser typeFormatter fullName roots :
  getRootNodes program fullName = Ok roots →
  Forall (λ rootNode,
            NoDup (getName <$>
                     definitionChildren typeFormatter (createType nodeParser rootNode)))
         roots →
  ∃ schema store,
    createSchema program nodeParser typeFormatter fullName = Ok schema ∧
    forEachRootType typeFormatter (map (createType nodeParser) roots) emptyStore
      = (Ok tt, store) ∧
    schema !! "definitions" = Some (JObj (JObj <$> definitions store)).
Proof.
  intros Hroots Hall. unfold createSchema. rewrite Hroots. simpl.
  assert ((forEachRootType typeFormatter (map (createType nodeParser) roots)
             emptyStore).1 = Ok tt) as Hok.
  { apply forEachRootType_Ok, Forall_fmap. eapply Forall_impl; [exact Hall|].
    intros rootNode Hnd. simpl. by apply checkNames_NoDup. }
  destruct (forEachRootType _ _ emptyStore) as [r store]. simpl in Hok. subst r.
  eexists _, store. split; [done|]. split; [done|]. apply schemaDocument_definitions.
Qed.

(** * The further properties on the sample programs *)

(** In the index of [/src/main.ts], [A] is filed with the interface [A]. *)
Lemma index_entries_sound_witness :
  interfaceA ∈ discovered [mainFile] ∧
  getFullName interfaceA sampleChecker = Ok "A" ∧
  isDeclarationKind (kind interfaceA) = true ∧
  isExportType interfaceA = true ∧ isGenericType interfaceA = false.
Proof.
  exact (index_entries_sound [mainFile] sampleChecker
           [("A", interfaceA); ("B", interfaceB)] "A" interfaceA eq_refl eq_refl).
Defined.

(** The index of the merged declarations has one entry for two nodes. *)
Lemma index_complete_witness :
  NoDup (map_keys [("A", interfaceA2)]) ∧
  (length [("A", interfaceA2)] ≤ length (discovered [mergedFile]))%nat ∧
  ∀ node, node ∈ discovered [mergedFile] →
    ∃ name node',
      getFullName node sampleChecker = Ok name ∧
      map_get name [("A", interfaceA2)] = Some node' ∧
      getFullName node' sampleChecker = Ok name.
Proof.
  exact (index_complete [mergedFile] sampleChecker [("A", interfaceA2)] eq_refl).
Defined.

(** The library indexed on top of the project index: [A] is overwritten in
    place, [B] is kept, [E] is new. *)
Lemma appendTypes_extends_witness :
  (∃ fresh, map_keys [("A", libraryA); ("B", interfaceB); ("E", libraryE)] =
            map_keys [("A", interfaceA); ("B", interfaceB)] ++ fresh) ∧
  map_get "B" [("A", libraryA); ("B", interfaceB); ("E", libraryE)] = Some interfaceB.
Proof.
  destruct (appendTypes_extends [libraryFile] sampleChecker
              [("A", interfaceA); ("B", interfaceB)]
              [("A", libraryA); ("B", interfaceB); ("E", libraryE)] eq_refl)
    as (Hkeys & _ & _ & _).
  split; [exact Hkeys | reflexivity].
Defined.

(** The enum [E] of the library, found by name. *)
Lemma findNamedNode_sound_witness :
  getFullName libraryE sampleChecker = Ok "E" ∧
  libraryE ∈ discovered (getSourceFiles sampleProgram) ∧
  isDeclarationKind (kind libraryE) = true ∧
  isExportType libraryE = true ∧ isGenericType libraryE = false.
Proof.
  exact (findNamedNode_sound sampleProgram "E" libraryE eq_refl).
Defined.

(** Of the two merged declarations of [A], the second is returned. *)
Lemma findNamedNode_last_declaration_witness :
  findNamedNode mergedProgram "A" = Ok interfaceA2.
Proof.
  exact (findNamedNode_last_declaration mergedProgram "A"
           [("A", interfaceA); ("A", interfaceA2)] [] eq_refl eq_refl).
Defined.

(** [E] is declared in a dependency, not in a root file, and is the root. *)
Lemma getRootNodes_by_name_witness :
  ∃ node, [libraryE] = [node] ∧
          findNamedNode sampleProgram "E" = Ok node ∧
          getFullName node (getTypeChecker sampleProgram) = Ok "E" ∧
          node ∈ discovered (getSourceFiles sampleProgram).
Proof.
  destruct (getRootNodes_by_name sampleProgram "E") as (_ & Hroots & _);
    [discriminate | discriminate |].
  exact (Hroots [libraryE] eq_refl).
Defined.

(** The empty string is the wildcard. *)
Lemma getRootNodes_wildcard_distinct_witness :
  getRootNodes sampleProgram (Some "") = getRootNodes sampleProgram None.
Proof.
  exact (proj1 (getRootNodes_wildcard_distinct sampleProgram (Some "") eq_refl)).
Defined.

(** A single child named [Bar] goes through. *)
Lemma appendRootChildDefinitions_returns_iff_witness :
  (appendRootChildDefinitions (formatterWith [barOtherId]) (OtherType "root")
     emptyStore).1 = Ok tt.
Proof.
  apply (appendRootChildDefinitions_returns_iff (formatterWith [barOtherId])
           (OtherType "root") emptyStore).
  vm_compute. constructor; [apply not_elem_of_nil | constructor].
Defined.

(** After collecting the root [A], [A] is defined and [B] is not. *)
Lemma appendRootChildDefinitions_lookup_witness :
  definitions storeOfA !! "A" = Some definitionOfA ∧
  definitions storeOfA !! "B" = None.
Proof.
  split.
  - exact (appendRootChildDefinitions_lookup sampleFormatter typeOfA emptyStore
             storeOfA "A" eq_refl).
  - exact (appendRootChildDefinitions_lookup sampleFormatter typeOfA emptyStore
             storeOfA "B" eq_refl).
Defined.

(** The roots [A] and [B], collected in the other order. *)
Lemma forEachRootType_permutation_witness :
  ∃ store2,
    forEachRootType sampleFormatter [typeOfB; typeOfA] emptyStore = (Ok tt, store2) ∧
    dom (definitions store2) = dom (definitions storeOfAB).
Proof.
  apply (forEachRootType_permutation sampleFormatter [typeOfA; typeOfB]
           [typeOfB; typeOfA] emptyStore storeOfAB).
  - apply perm_swap.
  - reflexivity.
Defined.

(** The table of the document for the root [A] has the one key [A]. *)
Lemma createSchema_definitions_witness :
  ∃ roots defs,
    getRootNodes sampleProgram (Some "A") = Ok roots ∧
    documentOfA !! "definitions" = Some (JObj (JObj <$> defs)) ∧
    (∀ name,
       is_Some (defs !! name) ↔
       (name ∉ objectPrototypeKeys) ∧
       ∃ rootNode child,
         rootNode ∈ roots ∧
         child ∈ definitionChildren sampleFormatter (createType sampleParser rootNode) ∧
         getName child = name) ∧
    (∀ name d, defs !! name = Some d →
       ∃ rootNode child,
         rootNode ∈ roots ∧
         child ∈ definitionChildren sampleFormatter (createType sampleParser rootNode) ∧
         getName child = name ∧
         d = getDefinition sampleFormatter (getType child)).
Proof.
  exact (createSchema_definitions sampleProgram sampleParser sampleFormatter
           (Some "A") documentOfA eq_refl).
Defined.

(** The error for a name declared nowhere. *)
Lemma createSchema_errors_witness :
  (NoRootTypeError "Z" = TypeError ∧
   ∃ node, node ∈ discovered (getSourceFiles sampleProgram) ∧ symbolAtNode node = None) ∨
  (∃ name,
     NoRootTypeError "Z" = NoRootTypeError name ∧ Some "Z" = Some name ∧
     name ≠ "" ∧ name ≠ "*" ∧
     ∀ node, node ∈ discovered (getSourceFiles sampleProgram) →
             getFullName node (getTypeChecker sampleProgram) ≠ Ok name) ∨
  (∃ name roots rootNode,
     NoRootTypeError "Z" = Error (collisionMessage name) ∧
     getRootNodes sampleProgram (Some "Z") = Ok roots ∧ rootNode ∈ roots ∧
     collidingName (definitionChildren sampleFormatter (createType sampleParser rootNode))
                   name).
Proof.
  exact (createSchema_errors sampleProgram sampleParser sampleFormatter (Some "Z")
           (NoRootTypeError "Z") eq_refl).
Defined.

(** The root [A], by name and by node. *)
Lemma createSchema_single_root_witness :
  createSchema sampleProgram sampleParser sampleFormatter (Some "A") =
  createSchemaFromNode sampleParser sampleFormatter interfaceA.
Proof.
  exact (createSchema_single_root sampleProgram sampleParser sampleFormatter
           (Some "A") interfaceA eq_refl).
Defined.

(** The quoted module [m] inside the namespace [N] is cut out. *)
Lemma getFullName_segment_witness :
  getFullName nestedA sampleChecker = Ok "N.A".
Proof.
  exact (getFullName_segment nestedA sampleChecker
           (mkSymbol "A" (Some (mkSymbol (quoted "m") (Some (mkSymbol "N" None None)) None))
                     None)
           "N." "m" "A" eq_refl eq_refl eq_refl eq_refl eq_refl).
Defined.

(** The wildcard over the sample program returns a document. *)
Lemma createSchema_returns_witness :
  ∃ schema store,
    createSchema sampleProgram sampleParser sampleFormatter (Some "*") = Ok schema ∧
    forEachRootType sampleFormatter
      (map (createType sampleParser) [interfaceA; interfaceB]) emptyStore
      = (Ok tt, store) ∧
    schema !! "definitions" = Some (JObj (JObj <$> definitions store)).
Proof.
  apply (createSchema_returns sampleProgram sampleParser sampleFormatter (Some "*")
           [interfaceA; interfaceB]); [reflexivity|].
  vm_compute.
  repeat (constructor; [constructor; [apply not_elem_of_nil | constructor]|]).
  constructor.
Defined.

(** * The claims that rest on the collaborators *)

(** ** Index building never fails *)




(** ** The qualified name without its module *)






(** ** Name collisions are fatal *)

(** The children formatted over a shared mapping keep distinct names. *)
Lemma forEachRootType_names typeFormatter rootTypes store :
  NoDup (getName <$> formatted store) →
  (∀ child, child ∈ formatted store → is_Some (definitions store !! getName child)) →
  NoDup (getName <$> formatted (forEachRootType typeFormatter rootTypes store).2).
Proof.
  intros Hnd Hkeys.
  destruct (forEachRootType_grows typeFormatter rootTypes store)
    as [Hkeep (new & Hlog & Hnew_nd & Hnew & _)].
  rewrite Hlog, fmap_app. apply NoDup_app. split; [done|]. split; [|done].
  intros name (c & -> & Hc)%list_elem_of_fmap (c' & Heq & Hc')%list_elem_of_fmap.
  destruct (Hkeys c Hc) as [d Hd]. destruct (Hnew c' Hc') as [Hnone _].
  rewrite <- Heq in Hnone. congruence.
Qed.

(** Over a run from the empty mapping the keys are the names of the
    children formatted, one child for each. *)
Lemma forEachRootType_log typeFormatter rootTypes :
  let final := (forEachRootType typeFormatter rootTypes emptyStore).2 in
  NoDup (getName <$> formatted final) ∧
  (∀ key, is_Some (definitions final !! key) ↔ key ∈ getName <$> formatted final) ∧
  (∀ child, child ∈ formatted final →
     definitions final !! getName child =
       Some (getDefinition typeFormatter (getType child))).
Proof.
  intros final.
  destruct (forEachRootType_grows typeFormatter rootTypes emptyStore)
    as [_ (new & Hlog & Hnd & Hnew & Hgain)].
  fold final in Hlog, Hnew, Hgain. simpl in Hlog. rewrite Hlog.
  split; [done|]. split.
  - intros key. split.
    + intros [Hold|Hin]%Hgain; [|done]. simpl in Hold.
      rewrite lookup_empty in Hold. by destruct Hold.
    + intros (c & -> & Hc)%list_elem_of_fmap. destruct (Hnew c Hc) as [_ ->].
      by eexists.
  - intros child Hc. by destruct (Hnew child Hc).
Qed.

(** C1.  With ids as [DefinitionType] makes them, an invocation of the
    collector whose deduplicated children hold two of one name and
    different ids throws, the message of the error carries a name under
    which two of the children collide, and the mapping is left as it was.
    And no two children of one name are ever formatted into one mapping,
    whatever the ids: on a mapping that starts empty or on one shared
    between invocations, two formatted children of one name are one child,
    of one id; and in a document that [createSchema] returns the keys of
    [definitions] are the names of the children formatted, one child for
    each key. *)
Theorem collision_is_fatal typeFormatter :
  (∀ rootType store name,
     Forall properId (definitionChildren typeFormatter rootType) →
     collidingName (definitionChildren typeFormatter rootType) name →
     ∃ name',
       collidingName (definitionChildren typeFormatter rootType) name' ∧
       appendRootChildDefinitions typeFormatter rootType store =
         (Throw (Error (collisionMessage name')), store)) ∧
  (∀ rootTypes store,
     NoDup (getName <$> formatted store) →
     (∀ child, child ∈ formatted store →
               is_Some (definitions store !! getName child)) →
     ∀ child1 child2,
       child1 ∈ formatted (forEachRootType typeFormatter rootTypes store).2 →
       child2 ∈ formatted (forEachRootType typeFormatter rootTypes store).2 →
       getName child1 = getName child2 →
       child1 = child2 ∧ getId child1 = getId child2) ∧
  (∀ program nodeParser fullName schema,
     createSchema program nodeParser typeFormatter fullName = Ok schema →
     ∃ final,
       schema !! "definitions" = Some (JObj (JObj <$> definitions final)) ∧
       (∀ key, is_Some (definitions final !! key) ↔
               key ∈ getName <$> formatted final) ∧
       (∀ child, child ∈ formatted final →
          definitions final !! getName child =
            Some (getDefinition typeFormatter (getType child))) ∧
       ∀ child1 child2,
         child1 ∈ formatted final → child2 ∈ formatted final →
         getName child1 = getName child2 →
         child1 = child2 ∧ getId child1 = getId child2).
Proof.
  split; [|split].
  - intros rootType store name Hids Hcol.
    by eapply appendRootChildDefinitions_collision.
  - intros rootTypes store Hnd Hkeys child1 child2 H1 H2 Hname.
    assert (child1 = child2) as ->; [|done].
    pose proof (forEachRootType_names typeFormatter rootTypes store Hnd Hkeys) as Hnd'.
    by eapply (NoDup_fmap_eq getName).
  - intros program nodeParser fullName schema. unfold createSchema.
    destruct (getRootNodes program fullName) as [roots|]; simpl; [|done].
    pose proof (forEachRootType_log typeFormatter (map (createType nodeParser) roots))
      as (Hnd & Hkeys & Hvalues).
    destruct (forEachRootType typeFormatter _ emptyStore) as [[[]|e] final]; [|done].
    simpl in Hnd, Hkeys, Hvalues.
    intros [= <-]. exists final. split; [apply schemaDocument_definitions|].
    split; [done|]. split; [done|].
    intros child1 child2 H1 H2 Hname.
    assert (child1 = child2) as ->; [|done].
    by eapply (NoDup_fmap_eq getName).
Qed.

(** * These claims on the sample programs *)



(** Two types named [Bar] among the children of a root. *)
Lemma collision_is_fatal_witness :
  ∃ name',
    collidingName (definitionChildren (formatterWith [barOne; bazOne; barTwo])
                                      (OtherType "root")) name' ∧
    appendRootChildDefinitions (formatterWith [barOne; bazOne; barTwo])
      (OtherType "root") emptyStore =
      (Throw (Error (collisionMessage name')), emptyStore).
Proof.
  apply (proj1 (collision_is_fatal (formatterWith [barOne; bazOne; barTwo]))
           (OtherType "root") emptyStore "Bar").
  - vm_compute. repeat (constructor; [discriminate|]). constructor.
  - exists barOne, barTwo. vm_compute.
    split; [by left|]. split; [right; right; by left|].
    split; [done|]. split; [done | discriminate].
Defined.
